(** * A shallow embedding of the streaming engine and block encoder of
    firehose-grpc (src/src/firehose.rs).

    Rust values are modelled as follows:
    - [u64]/[i64]/[u32] as [Z] (or [N]) with the range checks and casts the
      code performs written out;
    - [String]/[&str] as [string], one [ascii] per UTF-8 byte, so that
      [str::len] is [String.length] and byte slicing is [substring];
    - [Vec<u8>] as [list Byte.byte];
    - [anyhow::Result<T>] together with Rust panics as [res T]: [Ok], [Err]
      with the anyhow message, or [Panic]. *)

From Stdlib Require Import String Ascii List ZArith Lia Bool Sorting.Sorted.
From Stdlib Require Import Permutation.
Import ListNotations.
Open Scope list_scope.
Open Scope string_scope.
Open Scope nat_scope.

(** ** Results: [anyhow::Result] plus panics *)

Inductive res (A : Type) : Type :=
| Ok (a : A)
| Err (e : string)
| Panic (msg : string).
Arguments Ok {A} a.
Arguments Err {A} e.
Arguments Panic {A} msg.

Definition res_bind {A B} (m : res A) (k : A -> res B) : res B :=
  match m with
  | Ok a => k a
  | Err e => Err e
  | Panic p => Panic p
  end.

(** [let? x := e in k] is Rust's [let x = e?; k]. *)
Notation "'let?' x := m 'in' k" := (res_bind m (fun x => k))
  (at level 200, x name, m at level 100, k at level 200).

Definition map_err {A} (f : string -> string) (m : res A) : res A :=
  match m with
  | Err e => Err (f e)
  | r => r
  end.

(** [collect::<anyhow::Result<Vec<_>>>()] over a mapped iterator: stops at the
    first error (or panic). *)
Fixpoint collect_res {A B} (f : A -> res B) (l : list A) : res (list B) :=
  match l with
  | [] => Ok []
  | x :: xs => let? y := f x in let? ys := collect_res f xs in Ok (y :: ys)
  end.

(** ** Hex strings (crates [hex] and [prefix_hex]) *)

Definition hex_val (c : ascii) : option nat :=
  let n := nat_of_ascii c in
  if (48 <=? n) && (n <=? 57) then Some (n - 48)
  else if (97 <=? n) && (n <=? 102) then Some (n - 87)
  else if (65 <=? n) && (n <=? 70) then Some (n - 55)
  else None.

Definition byte_of_nat (n : nat) : Byte.byte :=
  match Byte.of_nat n with Some b => b | None => Byte.x00 end.

(** [hex::decode]: an even number of hex digits, two per byte. *)
Fixpoint hex_decode (s : string) : res (list Byte.byte) :=
  match s with
  | EmptyString => Ok []
  | String _ EmptyString => Err "Odd number of digits"
  | String c1 (String c2 rest) =>
      match hex_val c1, hex_val c2 with
      | Some h, Some l =>
          let? bs := hex_decode rest in Ok (byte_of_nat (16 * h + l) :: bs)
      | _, _ => Err "Invalid character"
      end
  end.

(** [prefix_hex::decode::<Vec<u8>>]: the [0x] prefix is required, the rest
    goes to [hex::decode]. *)
Definition prefix_hex_decode (s : string) : res (list Byte.byte) :=
  if prefix "0x" s then hex_decode (substring 2 (String.length s - 2) s)
  else Err "Invalid prefix".

Definition hex_digit (n : nat) : ascii :=
  ascii_of_nat (if n <? 10 then 48 + n else 87 + n).

Fixpoint hex_encode (bs : list Byte.byte) : string :=
  match bs with
  | [] => EmptyString
  | b :: rest =>
      let n := Byte.to_nat b in
      String (hex_digit (n / 16)) (String (hex_digit (n mod 16)) (hex_encode rest))
  end.

(** [prefix_hex::encode] of a byte vector: lower-case digits after [0x]. *)
Definition prefix_hex_encode (bs : list Byte.byte) : string :=
  "0x" ++ hex_encode bs.

(** [str::is_char_boundary]: index [i] does not fall on a UTF-8
    continuation byte (0x80..0xBF). *)
Definition is_char_boundary (s : string) (i : nat) : bool :=
  if i =? 0 then true
  else if String.length s <? i then false
  else if i =? String.length s then true
  else match String.get i s with
       | Some c => negb ((128 <=? nat_of_ascii c) && (nat_of_ascii c <=? 191))
       | None => false
       end.

(** [&value[i..]]: panics out of range or off a char boundary. *)
Definition str_slice_from (value : string) (i : nat) : res string :=
  if is_char_boundary value i then Ok (substring i (String.length value - i) value)
  else Panic "byte index is out of bounds or not a char boundary".

(** [format!("invalid {}: {}", label, value)] *)
Definition invalid_msg (label value : string) : string :=
  "invalid " ++ label ++ ": " ++ value.

(** [try_decode_hex] (firehose.rs, lines 36-45). *)
Definition try_decode_hex (label value : string) : res (list Byte.byte) :=
  if negb (Nat.even (String.length value)) then
    let? rest := str_slice_from value 2 in
    let value := "0x0" ++ rest in
    map_err (fun _ => invalid_msg label value) (prefix_hex_decode value)
  else
    map_err (fun _ => invalid_msg label value) (prefix_hex_decode value).

(** [str::trim_start_matches("0x")]: strips every leading repetition. *)
Fixpoint trim_start_0x (s : string) : string :=
  match s with
  | String "0" (String "x" rest) => trim_start_0x rest
  | _ => s
  end.

Definition u64_max : Z := 18446744073709551615%Z.
Definition i64_max : Z := 9223372036854775807%Z.
Definition i64_min : Z := (-9223372036854775808)%Z.

Fixpoint digits_radix16 (acc : Z) (s : string) : res Z :=
  match s with
  | EmptyString => Ok acc
  | String c rest =>
      match hex_val c with
      | None => Err "invalid digit found in string"
      | Some d =>
          let acc' := (acc * 16 + Z.of_nat d)%Z in
          if (u64_max <? acc')%Z then Err "number too large to fit in target type"
          else digits_radix16 acc' rest
      end
  end.

(** [u64::from_str_radix(src, 16)]: empty input and a lone sign are
    errors, a leading [+] is accepted. *)
Definition u64_from_str_radix16 (src : string) : res Z :=
  match src with
  | EmptyString => Err "cannot parse integer from empty string"
  | String "+" EmptyString | String "-" EmptyString => Err "invalid digit found in string"
  | String "+" rest => digits_radix16 0%Z rest
  | _ => digits_radix16 0%Z src
  end.

(** [qty2int] (firehose.rs, lines 47-49). *)
Definition qty2int (value : string) : res Z :=
  u64_from_str_radix16 (trim_start_0x value).

(** ** Data model

    The internal block shape comes from the [datasource] module; its fields
    are those [firehose.rs] reads.  Hex-carrying fields are strings, as on the
    wire. *)

Record HashAndHeight := mkHashAndHeight {
  hh_height : Z;   (* u64 *)
  hh_hash : string;
}.

Definition HashAndHeight_eqb (a b : HashAndHeight) : bool :=
  Z.eqb (hh_height a) (hh_height b) && String.eqb (hh_hash a) (hh_hash b).

Record BlockHeader := mkBlockHeader {
  bh_number : Z;            (* u64 *)
  bh_hash : string;
  bh_parent_hash : string;
  bh_sha3_uncles : string;
  bh_miner : string;
  bh_state_root : string;
  bh_transactions_root : string;
  bh_receipts_root : string;
  bh_logs_bloom : string;
  bh_difficulty : string;
  bh_total_difficulty : string;
  bh_size : Z;              (* u64 *)
  bh_gas_limit : string;
  bh_gas_used : string;
  bh_timestamp : Z;         (* u64 *)
  bh_extra_data : string;
  bh_mix_hash : string;
  bh_nonce : string;
  bh_base_fee_per_gas : option string;
}.

Record Transaction := mkTransaction {
  tx_from : string;
  tx_to : option string;
  tx_hash : string;
  tx_input : string;
  tx_nonce : Z;             (* u64 *)
  tx_gas_price : string;
  tx_gas : string;
  tx_gas_used : string;
  tx_cumulative_gas_used : string;
  tx_value : string;
  tx_v : string;
  tx_r : string;
  tx_s : string;
  tx_type : Z;
  tx_max_fee_per_gas : option string;
  tx_max_priority_fee_per_gas : option string;
  tx_transaction_index : N; (* u32 *)
}.

Record Log := mkLog {
  log_address : string;
  log_data : string;
  log_log_index : N;        (* u32 *)
  log_topics : list string;
  log_transaction_index : N;
}.

Inductive TraceType := TT_Create | TT_Call | TT_Suicide | TT_Reward.
Inductive CallType := CT_Call | CT_Callcode | CT_Delegatecall | CT_Staticcall.

Record TraceAction := mkTraceAction {
  ta_from : option string;
  ta_to : option string;
  ta_value : option string;
  ta_gas : option string;
  ta_input : option string;
  ta_type : option CallType;
}.

Record TraceResult := mkTraceResult {
  tr_gas_used : option string;
  tr_address : option string;
  tr_output : option string;
}.

Record Trace := mkTrace {
  trace_type : TraceType;
  trace_action : option TraceAction;
  trace_result : option TraceResult;
  trace_error : option string;
  trace_revert_reason : option string;
  trace_transaction_index : N;
}.

Record Block := mkBlock {
  blk_header : BlockHeader;
  blk_transactions : list Transaction;
  blk_logs : list Log;
  blk_traces : list Trace;
}.

(** ** The Firehose protobuf block ([pbcodec]) *)

Definition bytes := list Byte.byte.

Record pb_BlockHeader := mk_pb_BlockHeader {
  pbh_parent_hash : bytes;
  pbh_uncle_hash : bytes;
  pbh_coinbase : bytes;
  pbh_state_root : bytes;
  pbh_transactions_root : bytes;
  pbh_receipt_root : bytes;
  pbh_logs_bloom : bytes;
  pbh_difficulty : option bytes;        (* Option<BigInt> *)
  pbh_total_difficulty : option bytes;
  pbh_number : Z;
  pbh_gas_limit : Z;
  pbh_gas_used : Z;
  pbh_timestamp : option Z;             (* Timestamp { seconds, nanos: 0 } *)
  pbh_extra_data : bytes;
  pbh_mix_hash : bytes;
  pbh_nonce : Z;
  pbh_hash : bytes;
  pbh_base_fee_per_gas : option bytes;
}.

(** [pbcodec::BlockHeader::default()]. *)
Definition pb_BlockHeader_default : pb_BlockHeader :=
  mk_pb_BlockHeader [] [] [] [] [] [] [] None None 0%Z 0%Z 0%Z None [] [] 0%Z [] None.

Record pb_Log := mk_pb_Log {
  pbl_address : bytes;
  pbl_data : bytes;
  pbl_block_index : N;
  pbl_topics : list bytes;
  pbl_index : N;
  pbl_ordinal : Z;
}.

(** [pbcodec::Call]; the fields the translator leaves to
    [..Default::default()] are kept only where the code reads them
    ([state_reverted]). *)
Record pb_Call := mk_pb_Call {
  call_call_type : Z;
  call_caller : bytes;
  call_address : bytes;
  call_value : option bytes;
  call_gas_limit : Z;
  call_gas_consumed : Z;
  call_return_data : bytes;
  call_input : bytes;
  call_status_failed : bool;
  call_status_reverted : bool;
  call_failure_reason : string;
  call_state_reverted : bool;
}.

(** [pbcodec::TransactionTraceStatus]. *)
Inductive TransactionTraceStatus := Unknown | Succeeded | Failed | Reverted.

Definition status_to_i32 (s : TransactionTraceStatus) : Z :=
  match s with Unknown => 0 | Succeeded => 1 | Failed => 2 | Reverted => 3 end%Z.

Record pb_TransactionReceipt := mk_pb_TransactionReceipt {
  rcpt_state_root : bytes;
  rcpt_cumulative_gas_used : Z;
  rcpt_logs_bloom : bytes;
  rcpt_logs : list pb_Log;
}.

Record pb_TransactionTrace := mk_pb_TransactionTrace {
  tt_to : bytes;
  tt_nonce : Z;
  tt_gas_price : option bytes;
  tt_gas_limit : Z;
  tt_gas_used : Z;
  tt_value : option bytes;
  tt_input : bytes;
  tt_v : bytes;
  tt_r : bytes;
  tt_s : bytes;
  tt_type : Z;
  tt_max_fee_per_gas : option bytes;
  tt_max_priority_fee_per_gas : option bytes;
  tt_index : N;
  tt_hash : bytes;
  tt_from : bytes;
  tt_begin_ordinal : Z;
  tt_end_ordinal : Z;
  tt_status : Z;                         (* i32 *)
  tt_receipt : option pb_TransactionReceipt;
  tt_calls : list pb_Call;
}.
(* access_list, return_data and public_key are always empty vectors. *)

Record pb_Block := mk_pb_Block {
  pb_ver : Z;
  pb_hash : bytes;
  pb_number : Z;
  pb_size : Z;
  pb_header : option pb_BlockHeader;
  pb_transaction_traces : list pb_TransactionTrace;
}.
(* uncles, balance_changes and code_changes are always empty vectors. *)

(** [pbcodec::Block::default()]. *)
Definition pb_Block_default : pb_Block := mk_pb_Block 0%Z [] 0%Z 0%Z None [].

(** ** Block encoder *)

(** [opt.context(msg)?] *)
Definition context {A} (msg : string) (o : option A) : res A :=
  match o with Some a => Ok a | None => Err msg end.

(** [opt.map_or(Ok(None), |val| Ok(Some(BigInt { bytes: try_decode_hex(label, &val)? })))?] *)
Definition decode_opt (label : string) (o : option string) : res (option bytes) :=
  match o with
  | None => Ok None
  | Some v => let? b := try_decode_hex label v in Ok (Some b)
  end.

Definition zero_address : string := "0x0000000000000000000000000000000000000000".

(** [i64::try_from(u64)] *)
Definition i64_try_from_u64 (v : Z) : res Z :=
  if (v <=? i64_max)%Z then Ok v else Err "out of range integral type conversion attempted".

(** [impl TryFrom<BlockHeader> for pbcodec::BlockHeader] (lines 414-453);
    fields are converted in the order they are written. *)
Definition header_try_from (v : BlockHeader) : res pb_BlockHeader :=
  let? parent_hash := try_decode_hex "parent hash" (bh_parent_hash v) in
  let? uncle_hash := try_decode_hex "sha3 uncles" (bh_sha3_uncles v) in
  let? coinbase := try_decode_hex "miner" (bh_miner v) in
  let? state_root := try_decode_hex "state root" (bh_state_root v) in
  let? transactions_root := try_decode_hex "transactions root" (bh_transactions_root v) in
  let? receipt_root := try_decode_hex "receipts root" (bh_receipts_root v) in
  let? logs_bloom := try_decode_hex "logs bloom" (bh_logs_bloom v) in
  let? difficulty := try_decode_hex "difficulty" (bh_difficulty v) in
  let? total_difficulty := try_decode_hex "total difficulty" (bh_total_difficulty v) in
  let? gas_limit := qty2int (bh_gas_limit v) in
  let? gas_used := qty2int (bh_gas_used v) in
  let? seconds := i64_try_from_u64 (bh_timestamp v) in
  let? extra_data := try_decode_hex "extra data" (bh_extra_data v) in
  let? mix_hash := try_decode_hex "mix hash" (bh_mix_hash v) in
  let? nonce := qty2int (bh_nonce v) in
  let? hash := try_decode_hex "hash" (bh_hash v) in
  let? base_fee := decode_opt "base fee per gas" (bh_base_fee_per_gas v) in
  Ok (mk_pb_BlockHeader parent_hash uncle_hash coinbase state_root transactions_root
        receipt_root logs_bloom (Some difficulty) (Some total_difficulty) (bh_number v)
        gas_limit gas_used (Some seconds) extra_data mix_hash nonce hash base_fee).

(** [impl TryFrom<Transaction> for pbcodec::TransactionTrace] (lines 455-508). *)
Definition transaction_try_from (v : Transaction) : res pb_TransactionTrace :=
  let? to := try_decode_hex "tx to"
               (match tx_to v with Some t => t | None => zero_address end) in
  let? gas_price := try_decode_hex "tx gas price" (tx_gas_price v) in
  let? gas_limit := qty2int (tx_gas v) in
  let? gas_used := qty2int (tx_gas_used v) in
  let? value := try_decode_hex "tx value" (tx_value v) in
  let? input := try_decode_hex "tx input" (tx_input v) in
  let? tv := try_decode_hex "tx v" (tx_v v) in
  let? tr := try_decode_hex "tx r" (tx_r v) in
  let? ts := try_decode_hex "tx s" (tx_s v) in
  let? max_fee := decode_opt "tx max fee" (tx_max_fee_per_gas v) in
  let? max_prio := decode_opt "tx max priority" (tx_max_priority_fee_per_gas v) in
  let? hash := try_decode_hex "tx hash" (tx_hash v) in
  let? from := try_decode_hex "tx from" (tx_from v) in
  Ok (mk_pb_TransactionTrace to (tx_nonce v) (Some gas_price) gas_limit gas_used
        (Some value) input tv tr ts (tx_type v) max_fee max_prio
        (tx_transaction_index v) hash from 0%Z 0%Z (status_to_i32 Unknown) None []).

(** [impl TryFrom<Log> for pbcodec::Log] (lines 510-525). *)
Definition log_try_from (v : Log) : res pb_Log :=
  let? address := try_decode_hex "log address" (log_address v) in
  let? data := try_decode_hex "log data" (log_data v) in
  let? topics := collect_res (try_decode_hex "log topic") (log_topics v) in
  Ok (mk_pb_Log address data (log_log_index v) topics (log_transaction_index v) 0%Z).

Definition is_some {A} (o : option A) : bool :=
  match o with Some _ => true | None => false end.

Definition no_result : TraceResult := mkTraceResult None None None.

Definition option_default {A} (d : A) (o : option A) : A :=
  match o with Some a => a | None => d end.

(** [value.error.unwrap_or_else(|| value.revert_reason.unwrap_or_default())] *)
Definition failure_reason_of (t : Trace) : string :=
  match trace_error t with
  | Some e => e
  | None => option_default "" (trace_revert_reason t)
  end.

Definition call_type_code (o : option CallType) : Z :=
  match o with
  | Some CT_Call => 1 | Some CT_Callcode => 2
  | Some CT_Delegatecall => 3 | Some CT_Staticcall => 4
  | None => 0
  end%Z.

(** [impl TryFrom<Trace> for pbcodec::Call] (lines 527-614).  The struct
    update [..Default::default()] leaves [state_reverted] at [false]. *)
Definition call_try_from (v : Trace) : res pb_Call :=
  let status_failed := is_some (trace_error v) || is_some (trace_revert_reason v) in
  let status_reverted := is_some (trace_revert_reason v) in
  match trace_type v with
  | TT_Create =>
      let? action := context "no action" (trace_action v) in
      let result := option_default no_result (trace_result v) in
      let? gas := context "no gas" (ta_gas action) in
      let gas_used := option_default "0x0" (tr_gas_used result) in
      let? from := context "no from" (ta_from action) in
      let? caller := try_decode_hex "trace from" from in
      let? address := try_decode_hex "trace address"
                        (option_default zero_address (tr_address result)) in
      let? value := decode_opt "trace value" (ta_value action) in
      let? gas_limit := u64_from_str_radix16 (trim_start_0x gas) in
      let? gas_consumed := u64_from_str_radix16 (trim_start_0x gas_used) in
      let? return_data := prefix_hex_decode "0x" in
      let? input := prefix_hex_decode "0x" in
      Ok (mk_pb_Call 5%Z caller address value gas_limit gas_consumed return_data input
            status_failed status_reverted (failure_reason_of v) false)
  | TT_Call =>
      let? action := context "no action" (trace_action v) in
      let result := option_default no_result (trace_result v) in
      let call_type := call_type_code (ta_type action) in
      let? gas := context "no gas" (ta_gas action) in
      let gas_used := option_default "0x0" (tr_gas_used result) in
      let output := option_default "0x" (tr_output result) in
      let? from := context "no from" (ta_from action) in
      let? caller := try_decode_hex "trace from" from in
      let? to := context "no to" (ta_to action) in
      let? address := try_decode_hex "trace to" to in
      let? value := decode_opt "trace value" (ta_value action) in
      let? gas_limit := u64_from_str_radix16 (trim_start_0x gas) in
      let? gas_consumed := u64_from_str_radix16 (trim_start_0x gas_used) in
      let? return_data := try_decode_hex "trace output" output in
      let? inp := context "no input" (ta_input action) in
      let? input := try_decode_hex "trace input" inp in
      Ok (mk_pb_Call call_type caller address value gas_limit gas_consumed return_data input
            status_failed status_reverted (failure_reason_of v) false)
  | TT_Suicide | TT_Reward => Err "unsupported trace type"
  end.

(** [get_tx_trace_status] (lines 616-625): [&calls[0]] panics on an empty
    vector. *)
Definition get_tx_trace_status (calls : list pb_Call) : res Z :=
  match calls with
  | [] => Panic "index out of bounds: the len is 0 but the index is 0"
  | call :: _ =>
      Ok (if call_status_failed call && call_state_reverted call then status_to_i32 Reverted
          else if call_status_failed call then status_to_i32 Failed
          else status_to_i32 Succeeded)
  end.

(** *** [HashMap<u32, Vec<_>>] as an association list *)

Fixpoint hm_push {A} (k : N) (x : A) (m : list (N * list A)) : list (N * list A) :=
  match m with
  | [] => [(k, [x])]
  | (k', xs) :: rest =>
      if N.eqb k k' then (k', (xs ++ [x])%list) :: rest else (k', xs) :: hm_push k x rest
  end.

(** [HashMap::remove]: the entry's value, and the map without it. *)
Fixpoint hm_remove {A} (k : N) (m : list (N * list A)) : option (list A) * list (N * list A) :=
  match m with
  | [] => (None, [])
  | (k', xs) :: rest =>
      if N.eqb k k' then (Some xs, rest)
      else let '(r, rest') := hm_remove k rest in (r, (k', xs) :: rest')
  end.

(** The grouping loops of lines 631-653. *)
Definition group_by_tx {A} (idx : A -> N) (l : list A) : list (N * list A) :=
  fold_left (fun m x => hm_push (idx x) x m) l [].

(** Decimal formatting of a [u32] ([format!("{}", n)]). *)
Fixpoint decimal_go (fuel : nat) (n : N) (acc : string) : string :=
  match fuel with
  | O => acc
  | S fuel =>
      let d := String (ascii_of_N (48 + n mod 10)) acc in
      if (n <? 10)%N then d else decimal_go fuel (n / 10)%N d
  end.

Definition string_of_N (n : N) : string := decimal_go (S (N.size_nat n)) n "".

Definition zeros_512 : string := (fix go n := match n with
  | O => EmptyString | S n => String "0" (go n) end) 512.

(** The per-transaction closure of lines 655-686, up to line 681: it removes
    the transaction's logs and traces from the two maps, converts them, builds
    the receipt and converts the transaction itself. *)
Definition encode_tx_pre (logs_by_tx : list (N * list Log)) (traces_by_tx : list (N * list Trace))
    (tx : Transaction)
    : res (list pb_Call * pb_TransactionReceipt * pb_TransactionTrace
           * list (N * list Log) * list (N * list Trace)) :=
  let '(tx_logs, logs_by_tx') := hm_remove (tx_transaction_index tx) logs_by_tx in
  let? logs := collect_res
                 (fun l => map_err (fun _ => "log_index: " ++ string_of_N (log_log_index l))
                              (log_try_from l))
                 (option_default [] tx_logs) in
  let '(tx_traces, traces_by_tx') := hm_remove (tx_transaction_index tx) traces_by_tx in
  let? calls := collect_res call_try_from
                  (filter (fun t => match trace_type t with
                                    | TT_Call | TT_Create => true
                                    | TT_Reward | TT_Suicide => false end)
                          (option_default [] tx_traces)) in
  let? cumulative := qty2int (tx_cumulative_gas_used tx) in
  let? logs_bloom := prefix_hex_decode ("0x" ++ zeros_512) in
  let receipt := mk_pb_TransactionReceipt [] cumulative logs_bloom logs in
  let? tx_trace := transaction_try_from tx in
  Ok (calls, receipt, tx_trace, logs_by_tx', traces_by_tx').

(** The whole closure: lines 682-685 set status, receipt and calls. *)
Definition encode_tx (logs_by_tx : list (N * list Log)) (traces_by_tx : list (N * list Trace))
    (tx : Transaction) : res (pb_TransactionTrace * list (N * list Log) * list (N * list Trace)) :=
  let? pre := encode_tx_pre logs_by_tx traces_by_tx tx in
  let '(calls, receipt, tx_trace, logs_by_tx', traces_by_tx') := pre in
  let? status := get_tx_trace_status calls in
  Ok ({| tt_to := tt_to tx_trace; tt_nonce := tt_nonce tx_trace;
         tt_gas_price := tt_gas_price tx_trace; tt_gas_limit := tt_gas_limit tx_trace;
         tt_gas_used := tt_gas_used tx_trace; tt_value := tt_value tx_trace;
         tt_input := tt_input tx_trace; tt_v := tt_v tx_trace; tt_r := tt_r tx_trace;
         tt_s := tt_s tx_trace; tt_type := tt_type tx_trace;
         tt_max_fee_per_gas := tt_max_fee_per_gas tx_trace;
         tt_max_priority_fee_per_gas := tt_max_priority_fee_per_gas tx_trace;
         tt_index := tt_index tx_trace; tt_hash := tt_hash tx_trace;
         tt_from := tt_from tx_trace; tt_begin_ordinal := tt_begin_ordinal tx_trace;
         tt_end_ordinal := tt_end_ordinal tx_trace;
         tt_status := status; tt_receipt := Some receipt; tt_calls := calls |},
      logs_by_tx', traces_by_tx').

(** The conversion steps before the status, run over all transactions with
    the maps threaded as the closure does: each transaction's compiled call
    list. *)
Fixpoint encode_txs_pre (logs_by_tx : list (N * list Log)) (traces_by_tx : list (N * list Trace))
    (txs : list Transaction) : res (list (list pb_Call)) :=
  match txs with
  | [] => Ok []
  | tx :: rest =>
      let? pre := encode_tx_pre logs_by_tx traces_by_tx tx in
      let '(calls, _, _, lm, tm) := pre in
      let? callss := encode_txs_pre lm tm rest in
      Ok (calls :: callss)
  end.

Fixpoint encode_txs (logs_by_tx : list (N * list Log)) (traces_by_tx : list (N * list Trace))
    (txs : list Transaction) : res (list pb_TransactionTrace) :=
  match txs with
  | [] => Ok []
  | tx :: rest =>
      let? r := encode_tx logs_by_tx traces_by_tx tx in
      let '(t, lm, tm) := r in
      let? ts := encode_txs lm tm rest in
      Ok (t :: ts)
  end.

(** [impl TryFrom<Block> for pbcodec::Block] (lines 627-701). *)
Definition block_try_from (v : Block) : res pb_Block :=
  let logs_by_tx := group_by_tx log_transaction_index (blk_logs v) in
  let traces_by_tx := group_by_tx trace_transaction_index (blk_traces v) in
  let? transaction_traces := encode_txs logs_by_tx traces_by_tx (blk_transactions v) in
  let? hash := try_decode_hex "hash" (bh_hash (blk_header v)) in
  let? header := header_try_from (blk_header v) in
  Ok (mk_pb_Block 2%Z hash (bh_number (blk_header v)) (bh_size (blk_header v))
        (Some header) transaction_traces).

(** ** Filter compiler (lines 133-173) *)

Record LogFilter := mkLogFilter {
  lf_addresses : list bytes;
  lf_event_signatures : list bytes;
}.

Record CallToFilter := mkCallToFilter {
  cf_addresses : list bytes;
  cf_signatures : list bytes;
}.

(** A transform after [CombinedFilter::decode]. *)
Record CombinedFilter := mkCombinedFilter {
  cmb_log_filters : list LogFilter;
  cmb_call_filters : list CallToFilter;
  cmb_send_all_block_headers : bool;
}.

Record LogRequest := mkLogRequest {
  lr_address : list string;
  lr_topic0 : list string;
  lr_transaction : bool;
  lr_transaction_traces : bool;
  lr_transaction_logs : bool;
}.

Record TraceRequest := mkTraceRequest {
  trq_address : list string;
  trq_sighash : list string;
  trq_transaction : bool;
  trq_transaction_logs : bool;
  trq_parents : bool;
}.

(** [impl From<LogFilter> for LogRequest] (lines 374-392). *)
Definition LogRequest_from (v : LogFilter) : LogRequest :=
  mkLogRequest (map prefix_hex_encode (lf_addresses v))
               (map prefix_hex_encode (lf_event_signatures v)) true true true.

(** [impl From<CallToFilter> for TraceRequest] (lines 394-412). *)
Definition TraceRequest_from (v : CallToFilter) : TraceRequest :=
  mkTraceRequest (map prefix_hex_encode (cf_addresses v))
                 (map prefix_hex_encode (cf_signatures v)) true true true.

(** [Vec<String>::sort]: [String]'s [Ord] is byte-wise lexicographic, which
    is [String.compare]; insertion sort is stable like [slice::sort]. *)
Definition str_leb (a b : string) : bool :=
  match String.compare a b with Gt => false | _ => true end.

Fixpoint insert_sorted (x : string) (l : list string) : list string :=
  match l with
  | [] => [x]
  | y :: ys => if str_leb x y then x :: y :: ys else y :: insert_sorted x ys
  end.

Fixpoint sort_strings (l : list string) : list string :=
  match l with
  | [] => []
  | x :: xs => insert_sorted x (sort_strings xs)
  end.

(** [Vec<String> == Vec<String>] *)
Fixpoint list_string_eqb (a b : list string) : bool :=
  match a, b with
  | [], [] => true
  | x :: xs, y :: ys => String.eqb x y && list_string_eqb xs ys
  | _, _ => false
  end.

(** [for address in new { if !to_merge.address.contains(&address) { to_merge.address.push(address) } }] *)
Definition push_missing (acc new : list string) : list string :=
  fold_left (fun acc a => if existsb (String.eqb a) acc then acc else (acc ++ [a])%list) new acc.

Section Merge.
(** The two merge loops have the same shape; [R] is [LogRequest] with
    key [topic0], or [TraceRequest] with key [sighash]. *)
Variable R : Type.
Variable key : R -> list string.
Variable addr : R -> list string.
Variable with_addr : R -> list string -> R.

(** [logs.iter_mut().find(|log| log.topic0 == request.topic0)]: merge the
    addresses into the first entry with the same key, else push. *)
Fixpoint merge_into (l : list R) (r : R) : list R :=
  match l with
  | [] => [r]
  | x :: rest =>
      if list_string_eqb (key x) (key r) then with_addr x (push_missing (addr x) (addr r)) :: rest
      else x :: merge_into rest r
  end.
End Merge.

Definition log_with_address (r : LogRequest) (a : list string) : LogRequest :=
  {| lr_address := a; lr_topic0 := lr_topic0 r; lr_transaction := lr_transaction r;
     lr_transaction_traces := lr_transaction_traces r; lr_transaction_logs := lr_transaction_logs r |}.

Definition trace_with_address (r : TraceRequest) (a : list string) : TraceRequest :=
  {| trq_address := a; trq_sighash := trq_sighash r; trq_transaction := trq_transaction r;
     trq_transaction_logs := trq_transaction_logs r; trq_parents := trq_parents r |}.

(** [let mut log_request = LogRequest::from(log_filter); log_request.topic0.sort();] *)
Definition sorted_log_request (f : LogFilter) : LogRequest :=
  let r := LogRequest_from f in
  {| lr_address := lr_address r; lr_topic0 := sort_strings (lr_topic0 r);
     lr_transaction := lr_transaction r; lr_transaction_traces := lr_transaction_traces r;
     lr_transaction_logs := lr_transaction_logs r |}.

Definition sorted_trace_request (f : CallToFilter) : TraceRequest :=
  let r := TraceRequest_from f in
  {| trq_address := trq_address r; trq_sighash := sort_strings (trq_sighash r);
     trq_transaction := trq_transaction r; trq_transaction_logs := trq_transaction_logs r;
     trq_parents := trq_parents r |}.

Definition merge_log (logs : list LogRequest) (f : LogFilter) : list LogRequest :=
  merge_into LogRequest lr_topic0 lr_address log_with_address logs (sorted_log_request f).

Definition merge_trace (traces : list TraceRequest) (f : CallToFilter) : list TraceRequest :=
  merge_into TraceRequest trq_sighash trq_address trace_with_address traces (sorted_trace_request f).

(** The [for transform in &request.transforms] loop. *)
Fixpoint compile_transforms (transforms : list CombinedFilter)
    (logs : list LogRequest) (traces : list TraceRequest)
    : res (list LogRequest * list TraceRequest) :=
  match transforms with
  | [] => Ok (logs, traces)
  | filter :: rest =>
      if cmb_send_all_block_headers filter
      then Err "send_all_block_headers isn't implemented for CombinedFilter"
      else compile_transforms rest (fold_left merge_log (cmb_log_filters filter) logs)
                                   (fold_left merge_trace (cmb_call_filters filter) traces)
  end.

(** ** Streaming engine *)

(** Modelled from the spec: the [cursor] module (the [Cursor] type,
    [Cursor::new], [to_string] and [Cursor::try_from]) is not in src.  A
    cursor carries the last delivered block ([block], the field
    [From<Cursor> for State] reads) and the finalized head; the spec requires
    its string form to round-trip, so a response's cursor token is kept as
    the [Cursor] it encodes, and a request's token as the result of parsing
    it. *)
Record Cursor := mkCursor {
  cursor_block : HashAndHeight;
  cursor_finalized : HashAndHeight;
}.

Inductive CursorToken :=
| EmptyCursor                        (* [cursor.is_empty()] *)
| Token (parsed : option Cursor).    (* [Cursor::try_from]: [None] if malformed *)

(** Modelled from the spec: [From<&Block> for HashAndHeight] lives in the
    datasource module; it takes the header's hash and number, as the code
    builds [new_head] at lines 279-282. *)
Definition hh_of_block (b : Block) : HashAndHeight :=
  mkHashAndHeight (bh_number (blk_header b)) (bh_hash (blk_header b)).

(** Rust's [as] casts between [u64] and [i64]: two's-complement
    reinterpretation. *)
Definition u64_as_i64 (v : Z) : Z := if (v <=? i64_max)%Z then v else (v - 2 ^ 64)%Z.
Definition i64_as_u64 (v : Z) : Z := if (0 <=? v)%Z then v else (v + 2 ^ 64)%Z.

(** [struct State(Option<HashAndHeight>)] (lines 51-92). *)
Definition State := option HashAndHeight.

(** [height + 1] on [u64] (release build: wrapping). *)
Definition next_block (s : State) : Z :=
  match s with Some v => ((hh_height v + 1) mod 2 ^ 64)%Z | None => 0%Z end.

Definition current_block (s : State) : Z :=
  match s with Some v => u64_as_i64 (hh_height v) | None => (-1)%Z end.

(** [State::cursor]: [Cursor::new(value.clone(), value)]. *)
Definition state_cursor (s : State) : res Cursor :=
  match s with
  | Some v => Ok (mkCursor v v)
  | None => Panic "state should be updated first"
  end.

(** [From<State> for HashAndHeight] *)
Definition state_into (s : State) : res HashAndHeight :=
  match s with Some v => Ok v | None => Panic "state should be updated first" end.

Inductive TxRequest := TxRequest_default.

Record DataRequest := mkDataRequest {
  dr_from : Z;
  dr_to : option Z;
  dr_logs : list LogRequest;
  dr_transactions : list TxRequest;
  dr_traces : list TraceRequest;
}.

Record HotUpdate := mkHotUpdate {
  upd_base_head : HashAndHeight;
  upd_finalized_head : HashAndHeight;
  upd_blocks : list Block;
}.

(** The adapters, as the engine sees them: each call's answer; a stream is the
    list of the items it yields ([Err] items end the drain). *)
Record DataSource := mkDataSource {
  get_finalized_height : res Z;
  get_finalized_blocks : DataRequest -> bool -> res (list (res (list Block)));
}.

Record HotDataSource := mkHotDataSource {
  as_ds : DataSource;
  get_block_hash : Z -> res string;
  get_hot_blocks : DataRequest -> HashAndHeight -> res (list (res HotUpdate));
}.

Inductive ForkStep := StepNew | StepUndo.

Record Any := mkAny { any_type_url : string; any_value : pb_Block }.

Record Response := mkResponse {
  resp_block : option Any;
  resp_step : ForkStep;
  resp_cursor : Cursor;
}.

Definition block_type_url : string := "type.googleapis.com/sf.ethereum.type.v2.Block".

(** *** The stream monad: responses yielded so far, and how the body ended *)

Definition M (A : Type) : Type := (list Response * res A)%type.

Definition ret {A} (a : A) : M A := ([], Ok a).
Definition lift {A} (r : res A) : M A := ([], r).
Definition yield (r : Response) : M unit := ([r], Ok tt).

Definition bindM {A B} (m : M A) (k : A -> M B) : M B :=
  match m with
  | (out, Ok a) => let '(out', r) := k a in ((out ++ out')%list, r)
  | (out, Err e) => (out, Err e)
  | (out, Panic p) => (out, Panic p)
  end.

Notation "x <- m ;; k" := (bindM m (fun x => k))
  (at level 61, m at next level, right associativity).
Notation "m ;;; k" := (bindM m (fun _ : unit => k))
  (at level 61, right associativity).

(** The inner [for block in blocks] of phases A and B. *)
Fixpoint emit_finalized (state : State) (blocks : list Block) : M State :=
  match blocks with
  | [] => ret state
  | block :: rest =>
      let state := Some (hh_of_block block) in
      graph_block <- lift (block_try_from block) ;;
      cursor <- lift (state_cursor state) ;;
      yield (mkResponse (Some (mkAny block_type_url graph_block)) StepNew cursor) ;;;
      emit_finalized state rest
  end.

(** [while let Some(result) = stream.next().await { let blocks = result?; ... }] *)
Fixpoint drain_finalized (state : State) (items : list (res (list Block))) : M State :=
  match items with
  | [] => ret state
  | result :: rest =>
      blocks <- lift result ;;
      state <- emit_finalized state blocks ;;
      drain_finalized state rest
  end.

(** [if let Some(to_block) = to_block { if state.current_block() as u64 == to_block { return } }] *)
Definition stop_reached (to_block : option Z) (state : State) : bool :=
  match to_block with
  | Some t => Z.eqb (i64_as_u64 (current_block state)) t
  | None => false
  end.

(** How a phase ends: [Stop] is the stream body's [return]; both carry the
    state. *)
Inductive Flow := Stop (s : State) | Continue (s : State).

Definition check_stop (to_block : option Z) (state : State) : M Flow :=
  if stop_reached to_block state then ret (Stop state) else ret (Continue state).

(** Phase A (lines 179-212). *)
Definition phase_a (portal : DataSource) (rpc : option HotDataSource) (start_block : Z)
    (to_block : option Z) (state : State) (logs : list LogRequest)
    (traces : list TraceRequest) : M Flow :=
  portal_height <- lift (get_finalized_height portal) ;;
  if (current_block state <? u64_as_i64 portal_height)%Z || negb (is_some rpc) then
    let req := mkDataRequest (Z.max (next_block state) start_block) to_block logs [] traces in
    stream <- lift (get_finalized_blocks portal req (is_some rpc)) ;;
    state <- drain_finalized state stream ;;
    check_stop to_block state
  else ret (Continue state).

(** [to] of phase B: [min(to_block, rpc_height)], or [rpc_height]. *)
Definition phase_b_to (to_block : option Z) (rpc_height : Z) : Z :=
  match to_block with Some t => Z.min t rpc_height | None => rpc_height end.

(** Phase B (lines 220-261). *)
Definition phase_b (rpc : HotDataSource) (start_block : Z) (to_block : option Z)
    (state : State) (logs : list LogRequest) (traces : list TraceRequest) : M Flow :=
  rpc_height <- lift (get_finalized_height (as_ds rpc)) ;;
  if (current_block state <? u64_as_i64 rpc_height)%Z then
    let to := phase_b_to to_block rpc_height in
    let req := mkDataRequest (Z.max (next_block state) start_block) (Some to) logs [] traces in
    stream <- lift (get_finalized_blocks (as_ds rpc) req true) ;;
    state <- drain_finalized state stream ;;
    hash <- lift (get_block_hash rpc to) ;;
    let state := Some (mkHashAndHeight to hash) in
    check_stop to_block state
  else ret (Continue state).

(** The synthetic UNDO block of lines 289-293. *)
Definition undo_block (last_head : HashAndHeight) (parent_hash : bytes) : pb_Block :=
  let header := {| pbh_parent_hash := parent_hash;
                   pbh_uncle_hash := []; pbh_coinbase := []; pbh_state_root := [];
                   pbh_transactions_root := []; pbh_receipt_root := []; pbh_logs_bloom := [];
                   pbh_difficulty := None; pbh_total_difficulty := None;
                   pbh_number := hh_height last_head;
                   pbh_gas_limit := 0%Z; pbh_gas_used := 0%Z; pbh_timestamp := None;
                   pbh_extra_data := []; pbh_mix_hash := []; pbh_nonce := 0%Z; pbh_hash := [];
                   pbh_base_fee_per_gas := None |} in
  {| pb_ver := pb_ver pb_Block_default; pb_hash := pb_hash pb_Block_default;
     pb_number := pb_number pb_Block_default; pb_size := pb_size pb_Block_default;
     pb_header := Some header;
     pb_transaction_traces := pb_transaction_traces pb_Block_default |}.

(** [for block in upd.blocks] of phase C (lines 305-316). *)
Fixpoint emit_hot (finalized_head : HashAndHeight) (blocks : list Block) : M unit :=
  match blocks with
  | [] => ret tt
  | block :: rest =>
      let cursor := mkCursor (hh_of_block block) finalized_head in
      graph_block <- lift (block_try_from block) ;;
      yield (mkResponse (Some (mkAny block_type_url graph_block)) StepNew cursor) ;;;
      emit_hot finalized_head rest
  end.

(** [upd.blocks.last()]'s header, or [upd.base_head]. *)
Definition new_head_of (upd : HotUpdate) : HashAndHeight :=
  match rev (upd_blocks upd) with
  | [] => upd_base_head upd
  | b :: _ => mkHashAndHeight (bh_number (blk_header b)) (bh_hash (blk_header b))
  end.

(** One [HotUpdate] of phase C (lines 273-318): the next [last_head]. *)
Definition phase_c_update (last_head : HashAndHeight) (upd : HotUpdate) : M HashAndHeight :=
  let new_head := new_head_of upd in
  (if negb (HashAndHeight_eqb (upd_base_head upd) last_head) then
     let cursor := mkCursor (upd_base_head upd) (upd_finalized_head upd) in
     parent_hash <- lift (prefix_hex_decode (hh_hash (upd_base_head upd))) ;;
     yield (mkResponse (Some (mkAny block_type_url (undo_block last_head parent_hash)))
                       StepUndo cursor)
   else ret tt) ;;;
  emit_hot (upd_finalized_head upd) (upd_blocks upd) ;;;
  ret new_head.

Fixpoint phase_c_loop (last_head : HashAndHeight) (items : list (res HotUpdate)) : M unit :=
  match items with
  | [] => ret tt
  | result :: rest =>
      upd <- lift result ;;
      new_head <- phase_c_update last_head upd ;;
      phase_c_loop new_head rest
  end.

(** Phase C (lines 263-319). *)
Definition phase_c (rpc : HotDataSource) (start_block : Z) (to_block : option Z)
    (state : State) (logs : list LogRequest) (traces : list TraceRequest) : M unit :=
  let req := mkDataRequest (Z.max (next_block state) start_block) to_block logs [] traces in
  last_head <- lift (state_into state) ;;
  stream <- lift (get_hot_blocks rpc req last_head) ;;
  phase_c_loop last_head stream.

(** The [try_stream!] body (lines 178-320). *)
Definition blocks_stream (portal : DataSource) (rpc : option HotDataSource) (start_block : Z)
    (to_block : option Z) (state : State) (logs : list LogRequest)
    (traces : list TraceRequest) : M unit :=
  flow <- phase_a portal rpc start_block to_block state logs traces ;;
  match flow with
  | Stop _ => ret tt
  | Continue state =>
      match rpc with
      | None => ret tt
      | Some rpc =>
          flow <- phase_b rpc start_block to_block state logs traces ;;
          match flow with
          | Stop _ => ret tt
          | Continue state => phase_c rpc start_block to_block state logs traces
          end
      end
  end.

(** *** Request normalisation and [Firehose::blocks] *)

Record Request := mkRequest {
  start_block_num : Z;      (* i64 *)
  stop_block_num : Z;       (* u64 *)
  cursor : CursorToken;
  final_blocks_only : bool;
  transforms : list CombinedFilter;
}.

(** [i64::abs] (release build: [i64::MIN.abs()] wraps to [i64::MIN]). *)
Definition i64_abs (v : Z) : Z := if Z.eqb v i64_min then i64_min else Z.abs v.

(** [u64::try_from(i64)] *)
Definition u64_try_from_i64 (v : Z) : res Z :=
  if (0 <=? v)%Z then Ok v else Err "out of range integral type conversion attempted".

Definition saturating_sub (a b : Z) : Z := Z.max 0 (a - b).

(** [resolve_negative_start] (lines 20-34). *)
Definition resolve_negative_start (start_block_num : Z) (ds : DataSource) : res Z :=
  if (start_block_num <? 0)%Z then
    let? delta := u64_try_from_i64 (i64_abs start_block_num) in
    let? head := get_finalized_height ds in
    if (0 <? head)%Z then Ok (saturating_sub head delta) else Ok 0%Z
  else u64_try_from_i64 start_block_num.

(** [Firehose::blocks] (lines 107-321): the checks done before the stream
    starts, then the stream. *)
Definition blocks (portal : DataSource) (rpc : option HotDataSource) (request : Request)
    : res (M unit) :=
  if final_blocks_only request then Err "final_blocks_only requests aren't supported" else
  let? start_block := match rpc with
                      | Some rpc => resolve_negative_start (start_block_num request) (as_ds rpc)
                      | None => resolve_negative_start (start_block_num request) portal
                      end in
  let to_block := if Z.eqb (stop_block_num request) 0 then None
                  else Some (stop_block_num request) in
  let? state := match cursor request with
                | EmptyCursor => Ok None
                | Token (Some c) => Ok (Some (cursor_block c))
                | Token None => Err "invalid cursor"
                end in
  let? filters := compile_transforms (transforms request) [] [] in
  let '(logs, traces) := filters in
  Ok (blocks_stream portal rpc start_block to_block state logs traces).

(** *** [Firehose::block] (lines 323-371) *)

Inductive Reference :=
| BlockNumber (num : Z)
| BlockHashAndNumber (num : Z) (hash : string)
| RefCursor (token : option Cursor).   (* [Cursor::try_from(&cursor.cursor)] *)

Record SingleBlockRequest := mkSingleBlockRequest {
  reference : option Reference;
  sb_transforms : list CombinedFilter;
}.

Record SingleBlockResponse := mkSingleBlockResponse { sbr_block : option Any }.

Definition unwrap_panic : string := "called `Option::unwrap()` on a `None` value".

(** [match request.reference.as_ref().unwrap() { ... }] *)
Definition block_num_of (r : option Reference) : res Z :=
  match r with
  | None => Panic unwrap_panic
  | Some (BlockNumber n) => Ok n
  | Some (BlockHashAndNumber n _) => Ok n
  | Some (RefCursor (Some c)) => Ok (hh_height (cursor_block c))
  | Some (RefCursor None) => Panic "called `Result::unwrap()` on an `Err` value"
  end.

Definition LogRequest_default : LogRequest := mkLogRequest [] [] false false false.
Definition TraceRequest_default : TraceRequest := mkTraceRequest [] [] false false false.

(** Lines 360-370: the first block of the first batch, encoded. *)
Definition block_finish (stream : list (res (list Block))) : res SingleBlockResponse :=
  match stream with
  | [] => Panic unwrap_panic
  | result :: _ =>
      let? blocks := result in
      match blocks with
      | [] => Panic unwrap_panic
      | block :: _ =>
          let? graph_block := block_try_from block in
          Ok (mkSingleBlockResponse (Some (mkAny block_type_url graph_block)))
      end
  end.

Definition block (portal : DataSource) (rpc : option HotDataSource) (request : SingleBlockRequest)
    : res SingleBlockResponse :=
  match sb_transforms request with
  | _ :: _ => Err "transforms aren't supported in SingleBlockRequest"
  | [] =>
      let? block_num := block_num_of (reference request) in
      let req := mkDataRequest block_num (Some block_num) [LogRequest_default]
                               [TxRequest_default] [TraceRequest_default] in
      let? portal_height := get_finalized_height portal in
      let? stream :=
        if (block_num <=? portal_height)%Z then get_finalized_blocks portal req true
        else match rpc with
             | Some rpc =>
                 let? rpc_height := get_finalized_height (as_ds rpc) in
                 if (block_num <=? rpc_height)%Z then get_finalized_blocks portal req true
                 else Err "block isn't found"
             | None => Err "block isn't found"
             end in
      block_finish stream
  end.

(** ** Sample inputs *)

Module Samples.

Definition header100 : BlockHeader :=
  {| bh_number := 100; bh_hash := "0xaa"; bh_parent_hash := "0xbb";
     bh_sha3_uncles := "0x00"; bh_miner := "0x00"; bh_state_root := "0x00";
     bh_transactions_root := "0x00"; bh_receipts_root := "0x00"; bh_logs_bloom := "0x00";
     bh_difficulty := "0x1"; bh_total_difficulty := "0x1"; bh_size := 1;
     bh_gas_limit := "0x10"; bh_gas_used := "0x0"; bh_timestamp := 5;
     bh_extra_data := "0x"; bh_mix_hash := "0x00"; bh_nonce := "0x0";
     bh_base_fee_per_gas := None |}%Z.

Definition tx0 : Transaction :=
  {| tx_from := "0x01"; tx_to := None; tx_hash := "0xcc"; tx_input := "0x";
     tx_nonce := 0; tx_gas_price := "0x1"; tx_gas := "0x5208"; tx_gas_used := "0x5208";
     tx_cumulative_gas_used := "0x5208"; tx_value := "0x0"; tx_v := "0x1"; tx_r := "0x1";
     tx_s := "0x1"; tx_type := 2; tx_max_fee_per_gas := None;
     tx_max_priority_fee_per_gas := None; tx_transaction_index := 0 |}%Z.

(** A reverted root call: both [error] and [revert_reason] are set. *)
Definition reverted_call_trace : Trace :=
  {| trace_type := TT_Call;
     trace_action := Some (mkTraceAction (Some "0x01") (Some "0x02") (Some "0x0")
                                         (Some "0x10") (Some "0x") (Some CT_Call));
     trace_result := None; trace_error := Some "execution reverted";
     trace_revert_reason := Some "0x"; trace_transaction_index := 0 |}.

Definition block_with_traces (traces : list Trace) : Block :=
  mkBlock header100 [tx0] [] traces.

Definition hh99 : HashAndHeight := mkHashAndHeight 99 "0x99".
Definition hh101 : HashAndHeight := mkHashAndHeight 101 "0xa1".

(** A transaction whose [cumulative_gas_used] is not hex. *)
Definition tx_bad_gas : Transaction :=
  {| tx_from := "0x01"; tx_to := None; tx_hash := "0xcc"; tx_input := "0x";
     tx_nonce := 0; tx_gas_price := "0x1"; tx_gas := "0x5208"; tx_gas_used := "0x5208";
     tx_cumulative_gas_used := "0xzz"; tx_value := "0x0"; tx_v := "0x1"; tx_r := "0x1";
     tx_s := "0x1"; tx_type := 2; tx_max_fee_per_gas := None;
     tx_max_priority_fee_per_gas := None; tx_transaction_index := 0 |}%Z.

(** A block without traces whose only transaction fails a pre-status step. *)
Definition block_bad_gas : Block := mkBlock header100 [tx_bad_gas] [] [].

(** A data source at finalized height [height] that answers every request
    with the one block [block_with_traces [reverted_call_trace]]. *)
Definition source_at (height : Z) : DataSource :=
  mkDataSource (Ok height) (fun _ _ => Ok [Ok [block_with_traces [reverted_call_trace]]]).

Definition rpc_at (height : Z) : HotDataSource :=
  mkHotDataSource (source_at height) (fun _ => Ok "0xaa") (fun _ _ => Ok []).

(** The transforms of scenario S6, with [a = 0x01], [b = 0x02], [t = 0x0a]. *)
Definition transforms_s6 : list CombinedFilter :=
  [mkCombinedFilter [mkLogFilter [[Byte.x01]] [[Byte.x0a]]; mkLogFilter [[Byte.x02]] [[Byte.x0a]]]
                    [] false].

(** The same, with the address [a] listed twice in the first filter. *)
Definition transforms_dup : list CombinedFilter :=
  [mkCombinedFilter [mkLogFilter [[Byte.x01]; [Byte.x01]] [[Byte.x0a]];
                     mkLogFilter [[Byte.x02]] [[Byte.x0a]]] [] false].

(** A second transaction, at index 1. *)
Definition tx1 : Transaction :=
  {| tx_from := "0x02"; tx_to := Some "0x03"; tx_hash := "0xdd"; tx_input := "0x";
     tx_nonce := 1; tx_gas_price := "0x1"; tx_gas := "0x5208"; tx_gas_used := "0x5208";
     tx_cumulative_gas_used := "0xa410"; tx_value := "0x0"; tx_v := "0x1"; tx_r := "0x1";
     tx_s := "0x1"; tx_type := 2; tx_max_fee_per_gas := None;
     tx_max_priority_fee_per_gas := None; tx_transaction_index := 1 |}%Z.

Definition call_trace_at (i : N) : Trace :=
  {| trace_type := TT_Call;
     trace_action := Some (mkTraceAction (Some "0x01") (Some "0x02") None
                                         (Some "0x10") (Some "0x") None);
     trace_result := None; trace_error := None; trace_revert_reason := None;
     trace_transaction_index := i |}.

Definition reward_trace_at (i : N) : Trace :=
  {| trace_type := TT_Reward; trace_action := None; trace_result := None;
     trace_error := None; trace_revert_reason := None; trace_transaction_index := i |}.

Definition log_at (tx_index log_index : N) : Log :=
  mkLog "0x01" "0x" log_index ["0x0a"] tx_index.

(** Two transactions; logs and traces interleaved, one log under an index no
    transaction has, and a reward trace. *)
Definition block_two_txs : Block :=
  mkBlock header100 [tx0; tx1] [log_at 1 0; log_at 0 1; log_at 7 2; log_at 1 3]
          [call_trace_at 1; reward_trace_at 0; call_trace_at 0].

End Samples.

(** * Proofs *)

(** ** Strings and results *)

Lemma string_length_app (a b : string) :
  String.length (a ++ b) = String.length a + String.length b.
Proof. induction a as [|c a IH]; simpl; [reflexivity | now rewrite IH]. Qed.

Lemma substring_length (s : string) : forall n m,
  n + m <= String.length s -> String.length (substring n m s) = m.
Proof.
  induction s as [|c s IH]; intros [|n] [|m] Hle; simpl in *; try lia.
  - f_equal. apply IH. lia.
  - apply IH. lia.
  - apply IH. lia.
Qed.

Lemma char_boundary_length (s : string) (i : nat) :
  i <> 0 -> is_char_boundary s i = true -> i <= String.length s.
Proof.
  unfold is_char_boundary. intros Hi.
  destruct (Nat.eqb_spec i 0); [lia|].
  destruct (Nat.ltb_spec (String.length s) i); [discriminate | lia].
Qed.

Lemma res_bind_Ok {A B} (m : res A) (k : A -> res B) (b : B) :
  res_bind m k = Ok b -> exists a, m = Ok a /\ k a = Ok b.
Proof. destruct m; simpl; intros H; [eauto | discriminate | discriminate]. Qed.

(** Destructs the [res] scrutinee of a [let?] chain in hypothesis [H]. *)
Ltac res_step H :=
  match type of H with
  | res_bind ?m _ = _ =>
      let E := fresh "E" in destruct m eqn:E; simpl in H; try discriminate
  end.

(** ** The hex decoder *)

Definition parity_repaired (s : string) : string :=
  "0x0" ++ substring 2 (String.length s - 2) s.

Lemma try_decode_hex_odd (label s : string) :
  Nat.odd (String.length s) = true -> is_char_boundary s 2 = true ->
  try_decode_hex label s
  = map_err (fun _ => invalid_msg label (parity_repaired s)) (prefix_hex_decode (parity_repaired s)).
Proof.
  intros Hodd Hb. unfold try_decode_hex, str_slice_from.
  unfold Nat.odd in Hodd. rewrite Hodd, Hb. reflexivity.
Qed.

Lemma try_decode_hex_even (label s : string) :
  Nat.even (String.length s) = true ->
  try_decode_hex label s = map_err (fun _ => invalid_msg label s) (prefix_hex_decode s).
Proof. intros He. unfold try_decode_hex. rewrite He. reflexivity. Qed.

Lemma parity_repaired_even (s : string) :
  Nat.odd (String.length s) = true -> 2 <= String.length s ->
  Nat.even (String.length (parity_repaired s)) = true.
Proof.
  intros Hodd H2. unfold parity_repaired.
  rewrite string_length_app, substring_length by lia.
  change (String.length "0x0") with 3.
  replace (3 + (String.length s - 2)) with (S (String.length s)) by lia.
  rewrite Nat.even_succ. exact Hodd.
Qed.

Lemma try_decode_hex_err (label s e : string) :
  try_decode_hex label s = Err e -> exists v, e = invalid_msg label v.
Proof.
  unfold try_decode_hex, map_err.
  destruct (negb (Nat.even (String.length s))).
  - unfold str_slice_from. destruct (is_char_boundary s 2); simpl; [|discriminate].
    destruct (prefix_hex_decode _); intros H; inversion H; eauto.
  - destruct (prefix_hex_decode s); intros H; inversion H; eauto.
Qed.

(** ** The block encoder *)

Lemma collect_res_Forall {A B} (f : A -> res B) (P : B -> Prop) :
  (forall x y, f x = Ok y -> P y) ->
  forall l ys, collect_res f l = Ok ys -> Forall P ys.
Proof.
  intros Hf l. induction l as [|x l IH]; simpl; intros ys H.
  - inversion H. constructor.
  - res_step H. res_step H. inversion H; subst. constructor; eauto.
Qed.

(** The translator never sets [state_reverted]; [status_reverted] records
    the revert reason. *)
Lemma call_try_from_flags (t : Trace) (c : pb_Call) :
  call_try_from t = Ok c ->
  call_state_reverted c = false
  /\ call_status_reverted c = is_some (trace_revert_reason t)
  /\ call_status_failed c = is_some (trace_error t) || is_some (trace_revert_reason t).
Proof.
  unfold call_try_from. intros H.
  destruct (trace_type t); try discriminate;
    repeat res_step H; inversion H; subst; simpl; auto.
Qed.

(** The status table of the spec (section 4.6), read off the root call. *)
Definition root_call_status (root : pb_Call) : Z :=
  status_to_i32
    (if call_status_failed root && call_state_reverted root then Reverted
     else if call_status_failed root then Failed
     else Succeeded).

Lemma get_tx_trace_status_cons (c : pb_Call) (cs : list pb_Call) :
  get_tx_trace_status (c :: cs) = Ok (root_call_status c).
Proof.
  unfold get_tx_trace_status, root_call_status.
  destruct (call_status_failed c), (call_state_reverted c); reflexivity.
Qed.

(** What every encoded transaction satisfies. *)
Definition encoded_tx_ok (t : pb_TransactionTrace) : Prop :=
  (exists c cs, tt_calls t = c :: cs /\ tt_status t = root_call_status c)
  /\ Forall (fun c => call_state_reverted c = false) (tt_calls t).

Lemma encode_tx_pre_calls lm tm tx calls rcpt txt lm' tm' :
  encode_tx_pre lm tm tx = Ok (calls, rcpt, txt, lm', tm') ->
  Forall (fun c => call_state_reverted c = false) calls.
Proof.
  unfold encode_tx_pre. intros H.
  destruct (hm_remove _ lm) as [tx_logs lm1].
  res_step H. destruct (hm_remove _ tm) as [tx_traces tm1]. res_step H.
  repeat res_step H. inversion H; subst.
  eapply collect_res_Forall; [|eassumption].
  intros x y Hxy. apply (call_try_from_flags x y Hxy).
Qed.

Lemma encode_tx_ok lm tm tx t lm' tm' :
  encode_tx lm tm tx = Ok (t, lm', tm') -> encoded_tx_ok t.
Proof.
  unfold encode_tx. intros H. res_step H.
  destruct a as [[[[calls rcpt] txt] lm1] tm1].
  pose proof (encode_tx_pre_calls _ _ _ _ _ _ _ _ E) as Hc.
  destruct calls as [|c cs]; [simpl in H; discriminate|].
  rewrite get_tx_trace_status_cons in H. simpl in H. inversion H; subst.
  split; simpl; [eauto | exact Hc].
Qed.

Lemma encode_txs_ok : forall txs lm tm ts,
  encode_txs lm tm txs = Ok ts -> Forall encoded_tx_ok ts.
Proof.
  induction txs as [|tx txs IH]; simpl; intros lm tm ts H.
  - inversion H. constructor.
  - res_step H. destruct a as [[t lm1] tm1]. res_step H. inversion H; subst.
    constructor; [eapply encode_tx_ok; eassumption | eapply IH; eassumption].
Qed.

Lemma block_try_from_txs (b : Block) (pb : pb_Block) :
  block_try_from b = Ok pb -> Forall encoded_tx_ok (pb_transaction_traces pb).
Proof.
  unfold block_try_from. intros H. repeat res_step H. inversion H; subst. simpl.
  eapply encode_txs_ok; eassumption.
Qed.

(** Once every transaction's pre-status steps succeed, the first empty call
    list reaches [&calls[0]]. *)
Lemma encode_txs_panic : forall txs lm tm callss,
  encode_txs_pre lm tm txs = Ok callss -> In [] callss ->
  exists m, encode_txs lm tm txs = Panic m.
Proof.
  induction txs as [|tx txs IH]; simpl; intros lm tm callss H Hin.
  - inversion H; subst. destruct Hin.
  - res_step H. destruct a as [[[[calls rcpt] txt] lm1] tm1]. res_step H.
    inversion H; subst. unfold encode_tx. rewrite E. simpl.
    destruct calls as [|c cs].
    + simpl. eauto.
    + rewrite get_tx_trace_status_cons. simpl.
      destruct Hin as [Heq | Hin]; [discriminate|].
      destruct (IH _ _ _ E0 Hin) as [m Hm]. rewrite Hm. simpl. eauto.
Qed.

(** ** The stream monad *)

Lemma fst_bindM {A B} (m : M A) (k : A -> M B) :
  fst (bindM m k) = (fst m ++ match snd m with Ok a => fst (k a) | _ => [] end)%list.
Proof.
  destruct m as [out [a|e|p]]; simpl; [destruct (k a); reflexivity | | ];
    rewrite app_nil_r; reflexivity.
Qed.

Lemma snd_bindM_Ok {A B} (m : M A) (k : A -> M B) (b : B) :
  snd (bindM m k) = Ok b -> exists a, snd m = Ok a /\ snd (k a) = Ok b.
Proof.
  destruct m as [out [a|e|p]]; simpl; [destruct (k a) eqn:E; simpl; intros; eauto
                                      | discriminate | discriminate].
  exists a. rewrite E. auto.
Qed.

Lemma bind_lift_ok {A B} (a : A) (k : A -> M B) : bindM (lift (Ok a)) k = k a.
Proof. unfold bindM, lift. destruct (k a). reflexivity. Qed.

Lemma Forall_bindM {A B} (P : Response -> Prop) (m : M A) (k : A -> M B) :
  Forall P (fst m) -> (forall a, snd m = Ok a -> Forall P (fst (k a))) ->
  Forall P (fst (bindM m k)).
Proof.
  intros H1 H2. rewrite fst_bindM. apply Forall_app. split; [exact H1|].
  destruct (snd m) eqn:E; auto.
Qed.

(** ** Phases A and B: one NEW response per block, cursor [(block, block)] *)

Definition new_with_own_cursor (r : Response) : Prop :=
  resp_step r = StepNew
  /\ exists b g, block_try_from b = Ok g
                 /\ resp_block r = Some (mkAny block_type_url g)
                 /\ resp_cursor r = mkCursor (hh_of_block b) (hh_of_block b).

Lemma emit_finalized_responses : forall (bl : list Block) (st : State),
  Forall new_with_own_cursor (fst (emit_finalized st bl)).
Proof.
  induction bl as [|b bs IH]; intros st; cbn [emit_finalized]; [constructor|].
  apply Forall_bindM; [constructor|]. intros g Hg. simpl in Hg.
  apply Forall_bindM; [constructor|]. intros c Hc. simpl in Hc. inversion Hc; subst.
  apply Forall_bindM; [|intros; apply IH].
  simpl. constructor; [|constructor].
  split; [reflexivity|]. exists b, g. auto.
Qed.

Lemma drain_finalized_responses : forall items st,
  Forall new_with_own_cursor (fst (drain_finalized st items)).
Proof.
  induction items as [|it items IH]; intros st; cbn [drain_finalized]; [constructor|].
  apply Forall_bindM; [constructor|]. intros blocks _.
  apply Forall_bindM; [apply emit_finalized_responses|]. intros st' _. apply IH.
Qed.

Lemma check_stop_fst to_block st : fst (check_stop to_block st) = [].
Proof. unfold check_stop. destruct (stop_reached to_block st); reflexivity. Qed.

Lemma phase_a_responses portal rpc start to_block st logs traces :
  Forall new_with_own_cursor (fst (phase_a portal rpc start to_block st logs traces)).
Proof.
  unfold phase_a. apply Forall_bindM; [constructor|]. intros h _.
  destruct (_ || _); [|constructor].
  apply Forall_bindM; [constructor|]. intros items _.
  apply Forall_bindM; [apply drain_finalized_responses|]. intros st' _.
  rewrite check_stop_fst. constructor.
Qed.

Lemma phase_b_responses rpc start to_block st logs traces :
  Forall new_with_own_cursor (fst (phase_b rpc start to_block st logs traces)).
Proof.
  unfold phase_b. apply Forall_bindM; [constructor|]. intros h _.
  destruct (_ <? _)%Z; [|constructor].
  apply Forall_bindM; [constructor|]. intros items _.
  apply Forall_bindM; [apply drain_finalized_responses|]. intros st' _.
  apply Forall_bindM; [constructor|]. intros hash _.
  rewrite check_stop_fst. constructor.
Qed.

(** ** Phase C *)

Definition hot_new_cursor (fin : HashAndHeight) (r : Response) : Prop :=
  resp_step r = StepNew ->
  exists b g, block_try_from b = Ok g
              /\ resp_block r = Some (mkAny block_type_url g)
              /\ resp_cursor r = mkCursor (hh_of_block b) fin.

Lemma emit_hot_responses fin : forall (bl : list Block),
  Forall (fun r => resp_step r = StepNew /\ hot_new_cursor fin r) (fst (emit_hot fin bl)).
Proof.
  induction bl as [|b bs IH]; cbn [emit_hot]; [constructor|].
  apply Forall_bindM; [constructor|]. intros g Hg. simpl in Hg.
  apply Forall_bindM; [|intros; apply IH].
  simpl. constructor; [|constructor].
  split; [reflexivity|]. intros _. exists b, g. auto.
Qed.

Lemma phase_c_update_new_cursors (last_head : HashAndHeight) (upd : HotUpdate) :
  Forall (hot_new_cursor (upd_finalized_head upd)) (fst (phase_c_update last_head upd)).
Proof.
  unfold phase_c_update. apply Forall_bindM.
  - destruct (negb _); [|constructor].
    apply Forall_bindM; [constructor|]. intros ph _. simpl.
    constructor; [|constructor]. intros Hs. discriminate Hs.
  - intros [] _. apply Forall_bindM; [|intros; constructor].
    eapply Forall_impl; [|apply emit_hot_responses]. simpl. tauto.
Qed.

Lemma phase_c_update_fork (last_head : HashAndHeight) (upd : HotUpdate) (parent : bytes) :
  HashAndHeight_eqb (upd_base_head upd) last_head = false ->
  prefix_hex_decode (hh_hash (upd_base_head upd)) = Ok parent ->
  fst (phase_c_update last_head upd)
  = mkResponse (Some (mkAny block_type_url (undo_block last_head parent))) StepUndo
               (mkCursor (upd_base_head upd) (upd_finalized_head upd))
    :: fst (emit_hot (upd_finalized_head upd) (upd_blocks upd)).
Proof.
  intros Hfork Hhash. unfold phase_c_update. rewrite Hfork, Hhash. simpl.
  destruct (emit_hot _ _) as [out [[]|e|p]]; simpl; rewrite ?app_nil_r; reflexivity.
Qed.

(** ** Phase B in detail *)

Definition new_response_of (b : Block) (r : Response) : Prop :=
  resp_step r = StepNew
  /\ exists g, block_try_from b = Ok g /\ resp_block r = Some (mkAny block_type_url g).

Lemma emit_finalized_complete : forall (bl : list Block) (st st' : State),
  snd (emit_finalized st bl) = Ok st' ->
  Forall2 new_response_of bl (fst (emit_finalized st bl)).
Proof.
  induction bl as [|b bs IH]; intros st st' H; cbn [emit_finalized] in *; [constructor|].
  destruct (block_try_from b) as [g|e|p] eqn:Eg; simpl in H |- *; try discriminate.
  destruct (emit_finalized (Some (hh_of_block b)) bs) as [out r] eqn:Eo. simpl in H |- *.
  constructor.
  - split; [reflexivity|]. exists g. auto.
  - specialize (IH (Some (hh_of_block b)) st'). rewrite Eo in IH. apply IH. exact H.
Qed.

Lemma drain_finalized_complete : forall items (st st' : State),
  snd (drain_finalized st items) = Ok st' ->
  exists batches, items = map Ok batches
                  /\ Forall2 new_response_of (concat batches) (fst (drain_finalized st items)).
Proof.
  induction items as [|it items IH]; intros st st' H; cbn [drain_finalized] in *.
  - exists []. split; [reflexivity | constructor].
  - destruct it as [bl|e|p]; simpl in H |- *; try discriminate.
    destruct (emit_finalized st bl) as [out1 r1] eqn:E1.
    destruct r1 as [s1|e|p]; simpl in H |- *; try discriminate.
    destruct (drain_finalized s1 items) as [out2 r2] eqn:E2. simpl in H |- *.
    destruct (IH s1 st') as [batches [Hi Hf]]; [rewrite E2; exact H|].
    exists (bl :: batches). split; [rewrite Hi; reflexivity|].
    simpl. apply Forall2_app.
    + pose proof (emit_finalized_complete bl st s1) as Hc. rewrite E1 in Hc. apply Hc. reflexivity.
    + rewrite E2 in Hf. exact Hf.
Qed.

Lemma phase_b_run rh start to_block st logs traces hr items :
  get_finalized_height (as_ds rh) = Ok hr ->
  (current_block st <? u64_as_i64 hr)%Z = true ->
  get_finalized_blocks (as_ds rh)
    (mkDataRequest (Z.max (next_block st) start) (Some (phase_b_to to_block hr)) logs [] traces)
    true = Ok items ->
  fst (phase_b rh start to_block st logs traces) = fst (drain_finalized st items)
  /\ (forall st' h, snd (drain_finalized st items) = Ok st' ->
        get_block_hash rh (phase_b_to to_block hr) = Ok h ->
        snd (phase_b rh start to_block st logs traces)
        = snd (check_stop to_block (Some (mkHashAndHeight (phase_b_to to_block hr) h)))).
Proof.
  intros Hh Hlt Hb. unfold phase_b. rewrite Hh, bind_lift_ok, Hlt. cbv zeta.
  rewrite Hb, bind_lift_ok. split.
  - rewrite fst_bindM. destruct (drain_finalized st items) as [out [s|e|p]]; simpl;
      rewrite ?app_nil_r; try reflexivity.
    destruct (get_block_hash rh _); simpl; rewrite ?app_nil_r; try reflexivity.
    unfold check_stop. destruct (stop_reached _ _); simpl; rewrite app_nil_r; reflexivity.
  - intros st' h Hd Hgh.
    destruct (drain_finalized st items) as [out r]. simpl in Hd. subst r. simpl.
    rewrite Hgh. simpl. destruct (check_stop _ _). reflexivity.
Qed.

(** For heights below [2^63] the [as i64] casts are exact. *)
Definition current_height (st : State) : Z :=
  match st with Some v => hh_height v | None => (-1)%Z end.

Definition state_below (st : State) (bound : Z) : Prop :=
  match st with Some v => (0 <= hh_height v <= bound)%Z | None => True end.

Lemma current_block_exact (st : State) (hr : Z) :
  (0 <= hr <= i64_max)%Z -> state_below st i64_max ->
  (current_block st <? u64_as_i64 hr)%Z = (current_height st <? hr)%Z.
Proof.
  intros Hr Hs. unfold current_block, current_height, u64_as_i64.
  destruct (Z.leb_spec hr i64_max); [|lia].
  destruct st as [v|]; [|reflexivity]. simpl in Hs.
  destruct (Z.leb_spec (hh_height v) i64_max); [reflexivity | lia].
Qed.

(** ** The filter compiler *)

Lemma list_string_eqb_true (a b : list string) : list_string_eqb a b = true <-> a = b.
Proof.
  revert b. induction a as [|x a IH]; intros [|y b]; simpl; split; intros H;
    try discriminate; try reflexivity.
  - apply andb_true_iff in H as [H1 H2]. apply String.eqb_eq in H1.
    apply IH in H2. subst. reflexivity.
  - inversion H; subst. rewrite String.eqb_refl. simpl. apply IH. reflexivity.
Qed.

Lemma push_missing_app : forall new acc, exists ext, push_missing acc new = (acc ++ ext)%list.
Proof.
  induction new as [|a new IH]; intros acc; simpl.
  - exists []. rewrite app_nil_r. reflexivity.
  - destruct (existsb (String.eqb a) acc).
    + apply IH.
    + destruct (IH (acc ++ [a])%list) as [ext Hext]. rewrite Hext.
      exists (a :: ext). rewrite <- app_assoc. reflexivity.
Qed.

Lemma push_missing_In : forall new acc x,
  In x (push_missing acc new) <-> In x acc \/ In x new.
Proof.
  induction new as [|a new IH]; intros acc x; simpl.
  - tauto.
  - destruct (existsb (String.eqb a) acc) eqn:E.
    + rewrite IH. apply existsb_exists in E as [y [Hy Hya]].
      apply String.eqb_eq in Hya. subst. intuition congruence.
    + rewrite IH, in_app_iff. simpl. tauto.
Qed.

Lemma push_missing_NoDup : forall new acc, NoDup acc -> NoDup (push_missing acc new).
Proof.
  induction new as [|a new IH]; intros acc Hnd; simpl; [exact Hnd|].
  destruct (existsb (String.eqb a) acc) eqn:E; apply IH; [exact Hnd|].
  apply NoDup_app; [exact Hnd | constructor; [intros []|constructor] |].
  intros x Hx [Hxa|[]]. subst x.
  assert (existsb (String.eqb a) acc = true) as Ht
    by (apply existsb_exists; exists a; split; [exact Hx | apply String.eqb_refl]).
  congruence.
Qed.

Section MergeProps.
Variable R : Type.
Variable key : R -> list string.
Variable addr : R -> list string.
Variable with_addr : R -> list string -> R.
Hypothesis key_with_addr : forall r a, key (with_addr r a) = key r.
Hypothesis addr_with_addr : forall r a, addr (with_addr r a) = a.

Let merge := merge_into R key addr with_addr.

(** What the compiled list says about the requests [seen] merged into it:
    one entry per distinct key, whose addresses are exactly the union of
    the addresses of the requests with that key. *)
Definition merged (seen : list R) (l : list R) : Prop :=
  NoDup (map key l)
  /\ (forall y, In y seen -> exists x, In x l /\ key x = key y /\ incl (addr y) (addr x))
  /\ (forall x, In x l -> exists y, In y seen /\ key y = key x)
  /\ (forall x a, In x l -> In a (addr x) -> exists y, In y seen /\ key y = key x /\ In a (addr y)).

Lemma merge_keys : forall l r,
  (In (key r) (map key l) -> map key (merge l r) = map key l)
  /\ (~ In (key r) (map key l) -> map key (merge l r) = (map key l ++ [key r])%list).
Proof.
  induction l as [|x l IH]; intros r; simpl.
  - split; [intros []|reflexivity].
  - destruct (list_string_eqb (key x) (key r)) eqn:E.
    + apply list_string_eqb_true in E. simpl. rewrite key_with_addr.
      split; [reflexivity | intros Hn; exfalso; apply Hn; left; exact E].
    + assert (key x <> key r) as Hne
        by (intros Heq; apply list_string_eqb_true in Heq; congruence).
      destruct (IH r) as [IH1 IH2]. simpl. split.
      * intros [Heq|Hin]; [congruence|]. rewrite IH1 by exact Hin. reflexivity.
      * intros Hn. rewrite IH2 by tauto. reflexivity.
Qed.

Lemma merge_NoDup_keys l r : NoDup (map key l) -> NoDup (map key (merge l r)).
Proof.
  intros Hnd. destruct (merge_keys l r) as [H1 H2].
  destruct (in_dec (list_eq_dec string_dec) (key r) (map key l)) as [Hin|Hn].
  - rewrite H1 by exact Hin. exact Hnd.
  - rewrite H2 by exact Hn. apply NoDup_app; [exact Hnd | repeat constructor; intros [] |].
    intros x Hx [Hxr|[]]. subst. contradiction.
Qed.

(** Each entry of the result is an old entry, the old entry with key [key r]
    and [r]'s missing addresses pushed, or [r] itself (pushed at the end). *)
Lemma merge_In : forall l r x,
  In x (merge l r) ->
  In x l
  \/ (exists y, In y l /\ key y = key r /\ x = with_addr y (push_missing (addr y) (addr r)))
  \/ x = r.
Proof.
  induction l as [|y l IH]; intros r x; simpl.
  - intros [H|[]]. right; right. symmetry. exact H.
  - destruct (list_string_eqb (key y) (key r)) eqn:E; simpl.
    + apply list_string_eqb_true in E. intros [H|H].
      * right; left. exists y. auto.
      * left; right; exact H.
    + intros [H|H]; [left; left; exact H|].
      destruct (IH r x H) as [H1|[[z [Hz1 Hz2]]|H3]]; auto.
      right; left. exists z. auto.
Qed.

Lemma merge_has : forall l r,
  (exists x, In x (merge l r) /\ key x = key r /\ incl (addr r) (addr x))
  /\ (forall y, In y l -> exists x, In x (merge l r) /\ key x = key y /\ incl (addr y) (addr x)).
Proof.
  induction l as [|y l IH]; intros r; simpl.
  - split; [|intros _ []]. exists r. split; [left; reflexivity|]. split; [reflexivity|].
    intros a Ha; exact Ha.
  - destruct (list_string_eqb (key y) (key r)) eqn:E; simpl.
    + apply list_string_eqb_true in E. split.
      * exists (with_addr y (push_missing (addr y) (addr r))).
        rewrite key_with_addr, addr_with_addr. split; [left; reflexivity|].
        split; [exact E|]. intros a Ha. apply push_missing_In. right. exact Ha.
      * intros z [Hz|Hz].
        -- subst z. exists (with_addr y (push_missing (addr y) (addr r))).
           rewrite key_with_addr, addr_with_addr. split; [left; reflexivity|].
           split; [reflexivity|]. intros a Ha. apply push_missing_In. left. exact Ha.
        -- exists z. split; [right; exact Hz|]. split; [reflexivity|]. intros a Ha; exact Ha.
    + destruct (IH r) as [[x [Hx1 Hx2]] IH2]. split.
      * exists x. split; [right; exact Hx1 | exact Hx2].
      * intros z [Hz|Hz].
        -- subst z. exists y. split; [left; reflexivity|]. split; [reflexivity|].
           intros a Ha; exact Ha.
        -- destruct (IH2 z Hz) as [x' [Hx'1 Hx'2]]. exists x'. split; [right; exact Hx'1|exact Hx'2].
Qed.

Lemma merged_step (seen l : list R) (r : R) :
  merged seen l -> merged (seen ++ [r])%list (merge l r).
Proof.
  intros [Hnd [Hcov [Hsrc Haddr]]]. split; [|split; [|split]].
  - apply merge_NoDup_keys. exact Hnd.
  - intros y Hy. apply in_app_iff in Hy as [Hy|[Hy|[]]].
    + destruct (Hcov y Hy) as [x [Hx1 [Hx2 Hx3]]].
      destruct (proj2 (merge_has l r) x Hx1) as [x' [Hx'1 [Hx'2 Hx'3]]].
      exists x'. split; [exact Hx'1|]. split; [congruence|]. intros a Ha. auto.
    + subst y. apply (proj1 (merge_has l r)).
  - intros x Hx. destruct (merge_In l r x Hx) as [H|[[y [Hy1 [Hy2 Hy3]]]|H]].
    + destruct (Hsrc x H) as [y [Hy1 Hy2]]. exists y. split; [apply in_app_iff; left; exact Hy1|exact Hy2].
    + exists r. split; [apply in_app_iff; right; left; reflexivity|]. subst x.
      rewrite key_with_addr. congruence.
    + exists r. subst. split; [apply in_app_iff; right; left; reflexivity | reflexivity].
  - intros x a Hx Ha. destruct (merge_In l r x Hx) as [H|[[y [Hy1 [Hy2 Hy3]]]|H]].
    + destruct (Haddr x a H Ha) as [y [Hy1 Hy2]]. exists y. split; [apply in_app_iff; left; exact Hy1|exact Hy2].
    + subst x. rewrite addr_with_addr, key_with_addr in *.
      apply push_missing_In in Ha as [Ha|Ha].
      * destruct (Haddr y a Hy1 Ha) as [z [Hz1 Hz2]]. exists z. split; [apply in_app_iff; left; exact Hz1|exact Hz2].
      * exists r. split; [apply in_app_iff; right; left; reflexivity|]. split; [congruence|exact Ha].
    + subst x. exists r. split; [apply in_app_iff; right; left; reflexivity|]. auto.
Qed.

Lemma merged_fold : forall rs seen l,
  merged seen l -> merged (seen ++ rs)%list (fold_left merge rs l).
Proof.
  induction rs as [|r rs IH]; intros seen l H; simpl.
  - rewrite app_nil_r. exact H.
  - replace (seen ++ r :: rs)%list with ((seen ++ [r]) ++ rs)%list
      by (rewrite <- app_assoc; reflexivity).
    apply IH. apply merged_step. exact H.
Qed.

Lemma merged_nil : merged [] [].
Proof.
  split; [constructor|]. split; [intros _ []|]. split; intros x; [intros []|intros a []].
Qed.

(** Address lists: an entry only ever grows by appending missing
    addresses, so it stays duplicate-free if its first list was. *)
Lemma merge_NoDup_addr l r :
  Forall (fun x => NoDup (addr x)) l -> NoDup (addr r) ->
  Forall (fun x => NoDup (addr x)) (merge l r).
Proof.
  intros Hl Hr. apply Forall_forall. intros x Hx.
  destruct (merge_In l r x Hx) as [H|[[y [Hy1 [Hy2 Hy3]]]|H]].
  - exact (proj1 (Forall_forall _ _) Hl x H).
  - subst x. rewrite addr_with_addr. apply push_missing_NoDup.
    exact (proj1 (Forall_forall _ _) Hl y Hy1).
  - subst. exact Hr.
Qed.

Lemma fold_NoDup_addr : forall rs l,
  Forall (fun x => NoDup (addr x)) l -> Forall (fun x => NoDup (addr x)) rs ->
  Forall (fun x => NoDup (addr x)) (fold_left merge rs l).
Proof.
  induction rs as [|r rs IH]; intros l Hl Hrs; simpl; [exact Hl|].
  inversion Hrs; subst. apply IH; [apply merge_NoDup_addr|]; assumption.
Qed.
End MergeProps.

Lemma compile_transforms_folds : forall ts logs traces logs' traces',
  compile_transforms ts logs traces = Ok (logs', traces') ->
  logs' = fold_left merge_log (concat (map cmb_log_filters ts)) logs
  /\ traces' = fold_left merge_trace (concat (map cmb_call_filters ts)) traces.
Proof.
  induction ts as [|f ts IH]; intros logs traces logs' traces' H; simpl in H |- *.
  - inversion H. auto.
  - destruct (cmb_send_all_block_headers f); [discriminate|].
    rewrite !fold_left_app. apply IH. exact H.
Qed.

Lemma fold_left_map_merge {A R} (g : A -> R) (step : list R -> R -> list R) :
  forall (xs : list A) l,
  fold_left (fun acc x => step acc (g x)) xs l = fold_left step (map g xs) l.
Proof. induction xs as [|x xs IH]; intros l; simpl; [reflexivity | apply IH]. Qed.

Lemma hex_val_digit (d : nat) : d < 16 -> hex_val (hex_digit d) = Some d.
Proof.
  intros Hd. do 16 (destruct d as [|d]; [reflexivity|]). lia.
Qed.

Lemma hex_encode_inj : forall l1 l2, hex_encode l1 = hex_encode l2 -> l1 = l2.
Proof.
  induction l1 as [|b1 l1 IH]; intros [|b2 l2]; simpl; intros H; try discriminate; [reflexivity|].
  inversion H as [[Hhi Hlo Hrest]].
  pose proof (Byte.to_nat_bounded b1). pose proof (Byte.to_nat_bounded b2).
  assert (Byte.to_nat b1 / 16 = Byte.to_nat b2 / 16) as Eq1.
  { assert (Some (Byte.to_nat b1 / 16) = Some (Byte.to_nat b2 / 16)) as E; [|congruence].
    rewrite <- !hex_val_digit by (apply Nat.Div0.div_lt_upper_bound; lia). f_equal. exact Hhi. }
  assert (Byte.to_nat b1 mod 16 = Byte.to_nat b2 mod 16) as Eq2.
  { assert (Some (Byte.to_nat b1 mod 16) = Some (Byte.to_nat b2 mod 16)) as E; [|congruence].
    rewrite <- !hex_val_digit by (apply Nat.mod_upper_bound; lia). f_equal. exact Hlo. }
  assert (Byte.to_nat b1 = Byte.to_nat b2) as Eq.
  { rewrite (Nat.div_mod_eq (Byte.to_nat b1) 16), (Nat.div_mod_eq (Byte.to_nat b2) 16). lia. }
  assert (b1 = b2) as ->.
  { pose proof (Byte.of_to_nat b1) as E1. pose proof (Byte.of_to_nat b2) as E2. congruence. }
  f_equal. apply IH. exact Hrest.
Qed.

Lemma prefix_hex_encode_inj (a b : bytes) : prefix_hex_encode a = prefix_hex_encode b -> a = b.
Proof. unfold prefix_hex_encode. simpl. intros H. inversion H. apply hex_encode_inj. assumption. Qed.

Lemma NoDup_map_inj {A B} (f : A -> B) (Hf : forall x y, f x = f y -> x = y) :
  forall l, NoDup l -> NoDup (map f l).
Proof.
  induction l as [|x l IH]; intros Hnd; simpl; [constructor|].
  inversion Hnd; subst. constructor; [|auto].
  intros Hin. apply in_map_iff in Hin as [y [Hy1 Hy2]]. apply Hf in Hy1. subst. contradiction.
Qed.

Lemma sorted_log_request_NoDup (f : LogFilter) :
  NoDup (lf_addresses f) -> NoDup (lr_address (sorted_log_request f)).
Proof. intros H. apply NoDup_map_inj; [apply prefix_hex_encode_inj | exact H]. Qed.

Lemma sorted_trace_request_NoDup (f : CallToFilter) :
  NoDup (cf_addresses f) -> NoDup (trq_address (sorted_trace_request f)).
Proof. intros H. apply NoDup_map_inj; [apply prefix_hex_encode_inj | exact H]. Qed.

Lemma Forall_map_iff {A B} (g : A -> B) (P : B -> Prop) (l : list A) :
  Forall P (map g l) <-> Forall (fun x => P (g x)) l.
Proof.
  induction l as [|x l IH]; simpl; split; intros H; try constructor;
    inversion H; subst; try apply IH; auto.
Qed.

(** Scenario S6: two log filters with topic-0 [t] and distinct addresses. *)
Lemma compile_s6 (a b t : bytes) :
  a <> b ->
  compile_transforms [mkCombinedFilter [mkLogFilter [a] [t]; mkLogFilter [b] [t]] [] false] [] []
  = Ok ([mkLogRequest [prefix_hex_encode a; prefix_hex_encode b] [prefix_hex_encode t]
                      true true true], []).
Proof.
  intros Hab. cbn [compile_transforms cmb_send_all_block_headers cmb_log_filters
                   cmb_call_filters fold_left].
  unfold merge_log at 2. unfold merge_log at 1. cbn [merge_into].
  unfold sorted_log_request, LogRequest_from, log_with_address. cbn.
  rewrite String.eqb_refl. cbn.
  unfold push_missing. cbn.
  destruct (String.eqb (hex_encode b) (hex_encode a)) eqn:E.
  - apply String.eqb_eq, hex_encode_inj in E. congruence.
  - reflexivity.
Qed.

(** ** Helpers for the claims *)

Lemma HashAndHeight_eqb_neq (a b : HashAndHeight) : a <> b -> HashAndHeight_eqb a b = false.
Proof.
  destruct a as [ha sa], b as [hb sb]. unfold HashAndHeight_eqb. simpl. intros Hne.
  destruct (Z.eqb_spec ha hb), (String.eqb_spec sa sb); subst; simpl; congruence.
Qed.

(** Phase B below [2^63]: every delivered block gives one NEW response, in
    order, and the state ends at [(to', get_block_hash to')]. *)
Lemma phase_b_catch_up_below_2_63 rh start to_block st logs traces hr items :
  get_finalized_height (as_ds rh) = Ok hr ->
  (0 <= hr <= i64_max)%Z -> state_below st i64_max -> (current_height st < hr)%Z ->
  get_finalized_blocks (as_ds rh)
    (mkDataRequest (Z.max (next_block st) start) (Some (phase_b_to to_block hr)) logs [] traces)
    true = Ok items ->
  forall st' h, snd (drain_finalized st items) = Ok st' ->
  get_block_hash rh (phase_b_to to_block hr) = Ok h ->
  (exists batches, items = map Ok batches
     /\ Forall2 new_response_of (concat batches) (fst (phase_b rh start to_block st logs traces)))
  /\ snd (phase_b rh start to_block st logs traces)
     = snd (check_stop to_block (Some (mkHashAndHeight (phase_b_to to_block hr) h))).
Proof.
  intros Hh Hr Hs Hgt Hb st' h Hd Hgh.
  assert (Hlt : (current_block st <? u64_as_i64 hr)%Z = true).
  { rewrite current_block_exact by assumption. apply Z.ltb_lt. exact Hgt. }
  destruct (phase_b_run rh start to_block st logs traces hr items Hh Hlt Hb) as [H1 H2].
  split; [|exact (H2 st' h Hd Hgh)].
  rewrite H1. exact (drain_finalized_complete items st st' Hd).
Qed.

(** The source [Firehose::blocks] resolves a negative start against. *)
Definition preferred_source (portal : DataSource) (rpc : option HotDataSource) : DataSource :=
  match rpc with Some r => as_ds r | None => portal end.

Lemma resolve_negative_start_formula (ds : DataSource) (s : Z) :
  (i64_min < s < 0)%Z ->
  resolve_negative_start s ds
  = res_bind (get_finalized_height ds) (fun h => Ok (Z.max 0 (h - Z.abs s))).
Proof.
  intros Hs. unfold resolve_negative_start, i64_abs, u64_try_from_i64, saturating_sub.
  destruct (Z.ltb_spec s 0); [|lia].
  destruct (Z.eqb_spec s i64_min); [lia|].
  destruct (Z.leb_spec 0 (Z.abs s)); [|lia]. simpl.
  destruct (get_finalized_height ds) as [h|e|p]; simpl; try reflexivity.
  destruct (Z.ltb_spec 0 h); [reflexivity|]. f_equal. lia.
Qed.

Lemma blocks_start_error portal rpc stop cur tr e :
  resolve_negative_start i64_min (preferred_source portal rpc) = Err e ->
  blocks portal rpc (mkRequest i64_min stop cur false tr) = Err e.
Proof. unfold blocks, preferred_source. simpl. destruct rpc; intros H; rewrite H; reflexivity. Qed.

Lemma compile_log_requests ts logs traces :
  compile_transforms ts [] [] = Ok (logs, traces) ->
  logs = fold_left (merge_into LogRequest lr_topic0 lr_address log_with_address)
                   (map sorted_log_request (concat (map cmb_log_filters ts))) []
  /\ traces = fold_left (merge_into TraceRequest trq_sighash trq_address trace_with_address)
                   (map sorted_trace_request (concat (map cmb_call_filters ts))) [].
Proof.
  intros H. destruct (compile_transforms_folds _ _ _ _ _ H) as [HL HT]. split.
  - rewrite HL. exact (fold_left_map_merge sorted_log_request _ _ []).
  - rewrite HT. exact (fold_left_map_merge sorted_trace_request _ _ []).
Qed.

(** * Claims *)

Module Claims.
Import Samples.

(** C1: in phase C, an update whose [base_head] differs from [last_head]
    (and whose hash decodes) emits exactly one UNDO response first, then
    only NEW responses; the UNDO block's header carries
    [number = last_head.height] and [parent_hash] the bytes of
    [base_head.hash], and its cursor is [(base_head, finalized_head)]. *)
Theorem reorg_undo_first (last_head : HashAndHeight) (upd : HotUpdate) (parent : bytes)
    (Hfork : upd_base_head upd <> last_head)
    (Hhash : prefix_hex_decode (hh_hash (upd_base_head upd)) = Ok parent) :
  exists undo news,
    fst (phase_c_update last_head upd) = undo :: news
    /\ resp_step undo = StepUndo
    /\ resp_cursor undo = mkCursor (upd_base_head upd) (upd_finalized_head upd)
    /\ (exists g h, resp_block undo = Some (mkAny block_type_url g) /\ pb_header g = Some h
                    /\ pbh_number h = hh_height last_head /\ pbh_parent_hash h = parent)
    /\ Forall (fun r => resp_step r = StepNew) news.
Proof.
  rewrite (phase_c_update_fork last_head upd parent (HashAndHeight_eqb_neq _ _ Hfork) Hhash).
  eexists _, _. split; [reflexivity|]. simpl. split; [reflexivity|]. split; [reflexivity|].
  split.
  - eexists _, _. split; [reflexivity|]. split; [reflexivity|]. split; reflexivity.
  - eapply Forall_impl; [|apply emit_hot_responses]. simpl. tauto.
Qed.

Lemma reorg_undo_first_witness :
  exists undo news,
    fst (phase_c_update hh101 (mkHotUpdate hh99 hh99 [block_with_traces [reverted_call_trace]]))
    = undo :: news
    /\ resp_step undo = StepUndo
    /\ resp_cursor undo = mkCursor hh99 hh99
    /\ (exists g h, resp_block undo = Some (mkAny block_type_url g) /\ pb_header g = Some h
                    /\ pbh_number h = hh_height hh101 /\ pbh_parent_hash h = [Byte.x99])
    /\ Forall (fun r => resp_step r = StepNew) news.
Proof.
  apply (reorg_undo_first hh101 (mkHotUpdate hh99 hh99 [block_with_traces [reverted_call_trace]])
           [Byte.x99]).
  - discriminate.
  - reflexivity.
Defined.

(** C2: phase B compares [rpc_height as i64] with the current block; for an
    RPC finalized height of [2^63] or more the cast is negative, so however
    far the height is above the current block (from a state below [2^63]),
    phase B requests nothing, emits nothing and leaves the state unchanged. *)
Theorem phase_b_skipped_above_2_63 (rh : HotDataSource) (start : Z) (to_block : option Z)
    (st : State) (logs : list LogRequest) (traces : list TraceRequest) (hr : Z)
    (Hh : get_finalized_height (as_ds rh) = Ok hr)
    (Hbig : (i64_max < hr <= u64_max)%Z)
    (Hs : state_below st i64_max) :
  (current_height st < hr)%Z
  /\ phase_b rh start to_block st logs traces = ([], Ok (Continue st)).
Proof.
  assert (Hcast : (current_block st <? u64_as_i64 hr)%Z = false).
  { unfold current_block, u64_as_i64, i64_max, u64_max in *.
    replace (2 ^ 64)%Z with 18446744073709551616%Z by reflexivity.
    destruct (Z.leb_spec hr 9223372036854775807); [lia|].
    destruct st as [v|]; simpl in Hs |- *; [|apply Z.ltb_ge; lia].
    destruct (Z.leb_spec (hh_height v) 9223372036854775807); [|lia]. apply Z.ltb_ge. lia. }
  split.
  - unfold current_height, i64_max in *. destruct st as [v|]; simpl in Hs; lia.
  - unfold phase_b. rewrite Hh, bind_lift_ok, Hcast. reflexivity.
Qed.

Lemma phase_b_skipped_above_2_63_witness :
  (current_height None < 2 ^ 63)%Z
  /\ phase_b (rpc_at (2 ^ 63)) 0 None None [] [] = ([], Ok (Continue None)).
Proof.
  apply (phase_b_skipped_above_2_63 (rpc_at (2 ^ 63)) 0 None None [] [] (2 ^ 63)).
  - reflexivity.
  - unfold i64_max, u64_max. replace (2 ^ 63)%Z with 9223372036854775808%Z by reflexivity. lia.
  - exact I.
Defined.

(** C3: [resolve_negative_start] maps a start [s] with [i64::MIN < s < 0] to
    [max(0, H - |s|)] for the preferred source's height [H], and a start
    [s >= 0] to [s]; but [i64::MIN.abs()] overflows, so a request with
    [start_block_num = i64::MIN] fails instead of starting at
    [max(0, H - 2^63)]. *)
Theorem start_resolution_i64_min (portal : DataSource) (rpc : option HotDataSource) :
  (forall s, (i64_min < s < 0)%Z ->
     resolve_negative_start s (preferred_source portal rpc)
     = res_bind (get_finalized_height (preferred_source portal rpc))
                (fun h => Ok (Z.max 0 (h - Z.abs s))))
  /\ (forall s, (0 <= s)%Z -> resolve_negative_start s (preferred_source portal rpc) = Ok s)
  /\ (forall stop cur tr,
        blocks portal rpc (mkRequest i64_min stop cur false tr)
        = Err "out of range integral type conversion attempted").
Proof.
  split; [|split].
  - intros s Hs. apply resolve_negative_start_formula. exact Hs.
  - intros s Hs. unfold resolve_negative_start, u64_try_from_i64.
    destruct (Z.ltb_spec s 0); [lia|]. destruct (Z.leb_spec 0 s); [reflexivity|lia].
  - intros stop cur tr. apply blocks_start_error. reflexivity.
Qed.

(** C4: a single-block request with empty transforms and block number [n]
    reads the portal when [n <= portal_finalized]; otherwise, with an RPC
    adapter at [rpc_finalized >= n], it reads the portal as well; otherwise
    it fails with "block isn't found". *)
Theorem single_block_resolution (portal : DataSource) (rpc : option HotDataSource)
    (r : Reference) (n hp : Z)
    (Hn : block_num_of (Some r) = Ok n)
    (Hp : get_finalized_height portal = Ok hp) :
  ((n <= hp)%Z ->
     block portal rpc (mkSingleBlockRequest (Some r) [])
     = res_bind (get_finalized_blocks portal
                   (mkDataRequest n (Some n) [LogRequest_default] [TxRequest_default]
                                  [TraceRequest_default]) true) block_finish)
  /\ ((hp < n)%Z -> forall rh hr, rpc = Some rh -> get_finalized_height (as_ds rh) = Ok hr ->
      (n <= hr)%Z ->
      block portal rpc (mkSingleBlockRequest (Some r) [])
      = res_bind (get_finalized_blocks portal
                    (mkDataRequest n (Some n) [LogRequest_default] [TxRequest_default]
                                   [TraceRequest_default]) true) block_finish)
  /\ ((hp < n)%Z ->
      (rpc = None \/ exists rh hr, rpc = Some rh /\ get_finalized_height (as_ds rh) = Ok hr
                                   /\ (hr < n)%Z) ->
      block portal rpc (mkSingleBlockRequest (Some r) []) = Err "block isn't found").
Proof.
  unfold block. cbn [sb_transforms reference]. rewrite Hn. simpl. rewrite Hp. simpl. split; [|split].
  - intros Hle. destruct (Z.leb_spec n hp); [reflexivity|lia].
  - intros Hgt rh hr -> Hr Hle. destruct (Z.leb_spec n hp); [lia|].
    rewrite Hr. simpl. destruct (Z.leb_spec n hr); [reflexivity|lia].
  - intros Hgt Hrpc. destruct (Z.leb_spec n hp); [lia|].
    destruct Hrpc as [->|[rh [hr [-> [Hr Hlt]]]]]; [reflexivity|].
    rewrite Hr. simpl. destruct (Z.leb_spec n hr); [lia|reflexivity].
Qed.

Lemma single_block_resolution_witness :
  block (source_at 100) None (mkSingleBlockRequest (Some (BlockNumber 50)) [])
  = res_bind (get_finalized_blocks (source_at 100)
                (mkDataRequest 50 (Some 50%Z) [LogRequest_default] [TxRequest_default]
                               [TraceRequest_default]) true) block_finish.
Proof.
  apply (single_block_resolution (source_at 100) None (BlockNumber 50) 50 100);
    [reflexivity | reflexivity | lia].
Defined.

(** C5: the compiled request lists have one entry per distinct sorted key
    (topic-0 list, sighash list); every filter is covered by the entry with
    its key, and each entry's addresses are exactly the union of the
    addresses of the filters with that key, without duplicates when no input
    address list has any; scenario S6 gives one request with topic0 [[t]]
    and addresses [[a; b]]. *)
Theorem filter_merge (ts : list CombinedFilter) (logs : list LogRequest)
    (traces : list TraceRequest)
    (H : compile_transforms ts [] [] = Ok (logs, traces)) :
  merged LogRequest lr_topic0 lr_address
         (map sorted_log_request (concat (map cmb_log_filters ts))) logs
  /\ merged TraceRequest trq_sighash trq_address
            (map sorted_trace_request (concat (map cmb_call_filters ts))) traces
  /\ (Forall (fun f => NoDup (lf_addresses f)) (concat (map cmb_log_filters ts)) ->
      Forall (fun x => NoDup (lr_address x)) logs)
  /\ (Forall (fun f => NoDup (cf_addresses f)) (concat (map cmb_call_filters ts)) ->
      Forall (fun x => NoDup (trq_address x)) traces)
  /\ (forall a b t : bytes, a <> b ->
      compile_transforms [mkCombinedFilter [mkLogFilter [a] [t]; mkLogFilter [b] [t]] [] false]
                         [] []
      = Ok ([mkLogRequest [prefix_hex_encode a; prefix_hex_encode b] [prefix_hex_encode t]
                          true true true], [])).
Proof.
  destruct (compile_log_requests ts logs traces H) as [HL HT].
  assert (KL : forall r a, lr_topic0 (log_with_address r a) = lr_topic0 r) by reflexivity.
  assert (AL : forall r a, lr_address (log_with_address r a) = a) by reflexivity.
  assert (KT : forall r a, trq_sighash (trace_with_address r a) = trq_sighash r) by reflexivity.
  assert (AT : forall r a, trq_address (trace_with_address r a) = a) by reflexivity.
  split; [|split; [|split; [|split]]].
  - rewrite HL. apply (merged_fold _ _ _ _ KL AL _ [] []). apply merged_nil.
  - rewrite HT. apply (merged_fold _ _ _ _ KT AT _ [] []). apply merged_nil.
  - intros Hnd. rewrite HL. apply (fold_NoDup_addr LogRequest lr_topic0 lr_address log_with_address AL); [constructor|].
    apply Forall_map_iff. eapply Forall_impl; [|exact Hnd].
    intros f. apply sorted_log_request_NoDup.
  - intros Hnd. rewrite HT. apply (fold_NoDup_addr TraceRequest trq_sighash trq_address trace_with_address AT); [constructor|].
    apply Forall_map_iff. eapply Forall_impl; [|exact Hnd].
    intros f. apply sorted_trace_request_NoDup.
  - exact compile_s6.
Qed.

Lemma filter_merge_witness :
  merged LogRequest lr_topic0 lr_address
         (map sorted_log_request (concat (map cmb_log_filters transforms_s6)))
         [mkLogRequest ["0x01"; "0x02"] ["0x0a"] true true true]
  /\ merged TraceRequest trq_sighash trq_address
            (map sorted_trace_request (concat (map cmb_call_filters transforms_s6))) []
  /\ (Forall (fun f => NoDup (lf_addresses f)) (concat (map cmb_log_filters transforms_s6)) ->
      Forall (fun x => NoDup (lr_address x)) [mkLogRequest ["0x01"; "0x02"] ["0x0a"] true true true])
  /\ (Forall (fun f => NoDup (cf_addresses f)) (concat (map cmb_call_filters transforms_s6)) ->
      Forall (fun x => NoDup (trq_address x)) [])
  /\ (forall a b t : bytes, a <> b ->
      compile_transforms [mkCombinedFilter [mkLogFilter [a] [t]; mkLogFilter [b] [t]] [] false]
                         [] []
      = Ok ([mkLogRequest [prefix_hex_encode a; prefix_hex_encode b] [prefix_hex_encode t]
                          true true true], [])).
Proof.
  apply (filter_merge transforms_s6 [mkLogRequest ["0x01"; "0x02"] ["0x0a"] true true true] []).
  vm_compute. reflexivity.
Defined.

(** C5 counterexample: an address listed twice in the filter that first
    introduces a topic-0 key stays twice in the compiled request. *)
Lemma filter_merge_keeps_duplicates :
  compile_transforms transforms_dup [] []
  = Ok ([mkLogRequest ["0x01"; "0x01"; "0x02"] ["0x0a"] true true true], [])
  /\ ~ NoDup ["0x01"; "0x01"; "0x02"].
Proof.
  split; [vm_compute; reflexivity|].
  intros Hnd. inversion Hnd as [|x l Hn Hnd']. apply Hn. left. reflexivity.
Qed.

(** C6: an odd-length input whose byte 2 is a char boundary decodes as
    ["0x0" ++ s[2..]], an even-length one directly, and every [Err] is
    "invalid <label>: ..."; but the odd-length path drops the first two
    characters unchecked: "z" panics and "abc", not prefixed by "0x", is
    accepted. *)
Theorem try_decode_hex_parity (label : string) :
  (forall s, Nat.odd (String.length s) = true -> is_char_boundary s 2 = true ->
     try_decode_hex label s
     = map_err (fun _ => invalid_msg label (parity_repaired s)) (prefix_hex_decode (parity_repaired s)))
  /\ (forall s, Nat.odd (String.length s) = true -> 2 <= String.length s ->
      Nat.even (String.length (parity_repaired s)) = true)
  /\ (forall s, Nat.even (String.length s) = true ->
      try_decode_hex label s = map_err (fun _ => invalid_msg label s) (prefix_hex_decode s))
  /\ (forall s e, try_decode_hex label s = Err e -> exists v, e = invalid_msg label v)
  /\ (exists m, try_decode_hex label "z" = Panic m)
  /\ (exists e, prefix_hex_decode "abc" = Err e)
  /\ try_decode_hex label "abc" = Ok [Byte.x0c].
Proof.
  split; [|split; [|split; [|split; [|split; [|split]]]]].
  - intros s. apply try_decode_hex_odd.
  - intros s. apply parity_repaired_even.
  - intros s. apply try_decode_hex_even.
  - intros s e. apply try_decode_hex_err.
  - eexists. reflexivity.
  - eexists. reflexivity.
  - reflexivity.
Qed.

(** C7: every encoded transaction's status is the spec's table applied to
    the first of its (non-empty) calls, whatever the other calls are. *)
Theorem tx_status_from_root (b : Block) (pb : pb_Block) (H : block_try_from b = Ok pb) :
  Forall (fun t => exists c cs, tt_calls t = c :: cs /\ tt_status t = root_call_status c)
         (pb_transaction_traces pb)
  /\ (forall c cs, get_tx_trace_status (c :: cs) = Ok (root_call_status c)).
Proof.
  split.
  - eapply Forall_impl; [|exact (block_try_from_txs b pb H)]. intros t [Ht _]. exact Ht.
  - exact get_tx_trace_status_cons.
Qed.

Lemma tx_status_from_root_witness :
  exists pb, block_try_from (block_with_traces [reverted_call_trace]) = Ok pb
  /\ Forall (fun t => exists c cs, tt_calls t = c :: cs /\ tt_status t = root_call_status c)
            (pb_transaction_traces pb)
  /\ (forall c cs, get_tx_trace_status (c :: cs) = Ok (root_call_status c)).
Proof.
  exists (match block_try_from (block_with_traces [reverted_call_trace]) with
          | Ok pb => pb | _ => pb_Block_default end).
  split; [vm_compute; reflexivity|].
  apply (tx_status_from_root (block_with_traces [reverted_call_trace])).
  vm_compute. reflexivity.
Defined.

(** C8: when every transaction of a block passes the conversion steps
    before its status (its logs and calls convert, its cumulative gas
    parses, its receipt and transaction convert) and one of them has an
    empty call list, [pbcodec::Block::try_from] panics. *)
Theorem empty_calls_panic (b : Block) (callss : list (list pb_Call))
    (Hpre : encode_txs_pre (group_by_tx log_transaction_index (blk_logs b))
                           (group_by_tx trace_transaction_index (blk_traces b))
                           (blk_transactions b) = Ok callss)
    (Hempty : In [] callss) :
  exists m, block_try_from b = Panic m.
Proof.
  destruct (encode_txs_panic _ _ _ _ Hpre Hempty) as [m Hm].
  exists m. unfold block_try_from. rewrite Hm. reflexivity.
Qed.

Lemma empty_calls_panic_witness :
  exists m, block_try_from (block_with_traces []) = Panic m.
Proof.
  apply (empty_calls_panic (block_with_traces []) [[]]); [vm_compute; reflexivity | left; reflexivity].
Defined.

(** C8 counterexample: a block with no traces at all, whose transaction's
    cumulative gas is not hex, is rejected with an error, not a panic. *)
Lemma empty_calls_error_first :
  blk_traces block_bad_gas = []
  /\ exists e, block_try_from block_bad_gas = Err e.
Proof. split; [reflexivity|]. eexists. vm_compute. reflexivity. Qed.

(** C9: [pbcodec::Call::try_from] never sets [state_reverted] (it records a
    revert reason in [status_reverted]), so no encoded transaction has
    status Reverted, and a failed root call gives status Failed. *)
Theorem no_reverted_status (b : Block) (pb : pb_Block) (H : block_try_from b = Ok pb) :
  (forall t c, call_try_from t = Ok c ->
     call_state_reverted c = false /\ call_status_reverted c = is_some (trace_revert_reason t))
  /\ Forall (fun t => tt_status t <> status_to_i32 Reverted
                      /\ forall c cs, tt_calls t = c :: cs -> call_status_failed c = true ->
                         tt_status t = status_to_i32 Failed)
            (pb_transaction_traces pb).
Proof.
  split.
  - intros t c Hc. destruct (call_try_from_flags t c Hc) as [H1 [H2 _]]. auto.
  - eapply Forall_impl; [|exact (block_try_from_txs b pb H)].
    intros t [[c [cs [Hcalls Hst]]] Hall]. rewrite Hcalls in Hall.
    inversion Hall as [|c' cs' Hc Hcs]; subst.
    unfold root_call_status in Hst. rewrite Hc, andb_false_r in Hst. split.
    + rewrite Hst. destruct (call_status_failed c); discriminate.
    + intros c' cs' Hc' Hf. rewrite Hcalls in Hc'. inversion Hc'; subst.
      rewrite Hst, Hf. reflexivity.
Qed.

Lemma no_reverted_status_witness :
  exists pb, block_try_from (block_with_traces [reverted_call_trace]) = Ok pb
  /\ (forall t c, call_try_from t = Ok c ->
        call_state_reverted c = false /\ call_status_reverted c = is_some (trace_revert_reason t))
  /\ Forall (fun t => tt_status t <> status_to_i32 Reverted
                      /\ forall c cs, tt_calls t = c :: cs -> call_status_failed c = true ->
                         tt_status t = status_to_i32 Failed)
            (pb_transaction_traces pb).
Proof.
  exists (match block_try_from (block_with_traces [reverted_call_trace]) with
          | Ok pb => pb | _ => pb_Block_default end).
  split; [vm_compute; reflexivity|].
  apply (no_reverted_status (block_with_traces [reverted_call_trace])).
  vm_compute. reflexivity.
Defined.

(** C10: every response of phases A and B is a NEW response whose cursor is
    [(block, block)] for the block it carries; a NEW response of phase C
    carries [(block, upd.finalized_head)]. *)
Theorem finalized_cursor_is_block (portal : DataSource) (rpc : option HotDataSource)
    (rh : HotDataSource) (start : Z) (to_block : option Z) (st : State)
    (logs : list LogRequest) (traces : list TraceRequest)
    (last_head : HashAndHeight) (upd : HotUpdate) :
  Forall new_with_own_cursor (fst (phase_a portal rpc start to_block st logs traces))
  /\ Forall new_with_own_cursor (fst (phase_b rh start to_block st logs traces))
  /\ Forall (hot_new_cursor (upd_finalized_head upd)) (fst (phase_c_update last_head upd)).
Proof.
  split; [apply phase_a_responses | split; [apply phase_b_responses |]].
  apply phase_c_update_new_cursors.
Qed.

End Claims.

(** * Further properties of the code *)

(** ** Hex strings and quantities *)

Lemma substring_full (s : string) : substring 0 (String.length s) s = s.
Proof. induction s as [|c s IH]; simpl; [reflexivity | rewrite IH; reflexivity]. Qed.

Lemma hex_encode_length (bs : bytes) : String.length (hex_encode bs) = 2 * length bs.
Proof. induction bs as [|b bs IH]; simpl; [reflexivity | rewrite IH; lia]. Qed.

Lemma byte_of_nat_to_nat (b : Byte.byte) : byte_of_nat (Byte.to_nat b) = b.
Proof. unfold byte_of_nat. rewrite Byte.of_to_nat. reflexivity. Qed.

Lemma hex_decode_encode (bs : bytes) : hex_decode (hex_encode bs) = Ok bs.
Proof.
  induction bs as [|b bs IH]; [reflexivity|]. cbn [hex_encode hex_decode].
  pose proof (Byte.to_nat_bounded b).
  rewrite !hex_val_digit by (try apply Nat.Div0.div_lt_upper_bound; try apply Nat.mod_upper_bound; lia).
  rewrite IH. cbn [res_bind]. f_equal. f_equal.
  rewrite <- (Nat.div_mod_eq (Byte.to_nat b) 16). apply byte_of_nat_to_nat.
Qed.

Lemma prefix_hex_decode_encode (bs : bytes) : prefix_hex_decode (prefix_hex_encode bs) = Ok bs.
Proof.
  unfold prefix_hex_decode, prefix_hex_encode. simpl.
  replace (String.length (hex_encode bs) - 0) with (String.length (hex_encode bs)) by lia.
  rewrite substring_full.
  assert (Hp : prefix "" (hex_encode bs) = true) by (destruct (hex_encode bs); reflexivity).
  rewrite Hp. apply hex_decode_encode.
Qed.

Lemma hex_val_lt (c : ascii) (n : nat) : hex_val c = Some n -> n < 16.
Proof.
  unfold hex_val.
  destruct ((48 <=? nat_of_ascii c) && (nat_of_ascii c <=? 57)) eqn:E1.
  { intros H; inversion H; subst. apply andb_true_iff in E1 as [_ E]. apply Nat.leb_le in E. lia. }
  destruct ((97 <=? nat_of_ascii c) && (nat_of_ascii c <=? 102)) eqn:E2.
  { intros H; inversion H; subst. apply andb_true_iff in E2 as [_ E]. apply Nat.leb_le in E. lia. }
  destruct ((65 <=? nat_of_ascii c) && (nat_of_ascii c <=? 70)) eqn:E3; [|discriminate].
  intros H; inversion H; subst. apply andb_true_iff in E3 as [_ E]. apply Nat.leb_le in E. lia.
Qed.

Lemma hex_decode_length : forall n s bs,
  String.length s <= n -> hex_decode s = Ok bs -> 2 * length bs = String.length s.
Proof.
  induction n as [|n IH]; intros s bs Hn H.
  - destruct s; [inversion H; reflexivity | simpl in Hn; lia].
  - destruct s as [|c1 [|c2 rest]]; simpl in H.
    + inversion H; reflexivity.
    + discriminate.
    + destruct (hex_val c1), (hex_val c2); try discriminate.
      destruct (hex_decode rest) as [bs'|e|p] eqn:E; simpl in H; try discriminate.
      inversion H; subst. simpl in Hn |- *.
      rewrite <- (IH rest bs') by (lia || exact E). lia.
Qed.

Lemma substring_0x_app (x : string) :
  substring 2 (String.length ("0x" ++ x) - 2) ("0x" ++ x) = x.
Proof.
  simpl. replace (String.length x - 0) with (String.length x) by lia. apply substring_full.
Qed.

Lemma prefix_0x_split (s : string) :
  prefix "0x" s = true -> exists x, s = "0x" ++ x.
Proof.
  intros H. apply prefix_correct in H.
  destruct s as [|c1 [|c2 x]]; simpl in H; try discriminate.
  injection H as -> -> _. exists x. reflexivity.
Qed.

Lemma prefix_hex_decode_length (s : string) (bs : bytes) :
  prefix_hex_decode s = Ok bs -> prefix "0x" s = true /\ 2 * length bs + 2 = String.length s.
Proof.
  unfold prefix_hex_decode. destruct (prefix "0x" s) eqn:Ep; [|discriminate].
  destruct (prefix_0x_split s Ep) as [x ->]. rewrite substring_0x_app. intros H.
  split; [reflexivity|]. rewrite (hex_decode_length _ _ _ (le_n _) H). simpl. lia.
Qed.

Lemma map_err_Ok {A} (f : string -> string) (m : res A) (a : A) :
  map_err f m = Ok a -> m = Ok a.
Proof. destruct m; simpl; congruence. Qed.

(** The big-endian value of a byte string, as a number. *)
Definition be_value_from (acc : Z) (bs : bytes) : Z :=
  fold_left (fun a b => (a * 256 + Z.of_nat (Byte.to_nat b))%Z) bs acc.

Lemma be_value_from_shift : forall bs acc,
  be_value_from acc bs = (acc * 256 ^ Z.of_nat (length bs) + be_value_from 0 bs)%Z.
Proof.
  induction bs as [|b bs IH]; intros acc; unfold be_value_from in *; cbn [fold_left length].
  - simpl. lia.
  - rewrite (IH (acc * 256 + _)%Z), (IH (0 * 256 + _)%Z).
    rewrite Nat2Z.inj_succ, Z.pow_succ_r by lia. ring.
Qed.

Lemma be_value_bound : forall bs,
  (0 <= be_value_from 0 bs < 256 ^ Z.of_nat (length bs))%Z.
Proof.
  induction bs as [|b bs IH]; unfold be_value_from in *; cbn [fold_left length]; [simpl; lia|].
  pose proof (be_value_from_shift bs (0 * 256 + Z.of_nat (Byte.to_nat b))%Z) as E.
  unfold be_value_from in E. rewrite E. pose proof (Byte.to_nat_bounded b).
  rewrite Nat2Z.inj_succ, Z.pow_succ_r by lia.
  assert (0 < 256 ^ Z.of_nat (length bs))%Z by (apply Z.pow_pos_nonneg; lia). nia.
Qed.

Lemma digits_radix16_hex_encode : forall bs acc,
  (0 <= acc)%Z -> (be_value_from acc bs <= u64_max)%Z ->
  digits_radix16 acc (hex_encode bs) = Ok (be_value_from acc bs).
Proof.
  induction bs as [|b bs IH]; intros acc Hacc Hle; [reflexivity|].
  pose proof (Byte.to_nat_bounded b) as Hb.
  set (n := Byte.to_nat b) in *.
  assert (Hhi : n / 16 < 16) by (apply Nat.Div0.div_lt_upper_bound; lia).
  assert (Hlo : n mod 16 < 16) by (apply Nat.mod_upper_bound; lia).
  assert (Hn : n = 16 * (n / 16) + n mod 16) by apply Nat.div_mod_eq.
  cbn [hex_encode digits_radix16]. fold n.
  rewrite hex_val_digit by exact Hhi. rewrite hex_val_digit by exact Hlo.
  assert (Hstep : be_value_from acc (b :: bs) = be_value_from (acc * 256 + Z.of_nat n)%Z bs)
    by reflexivity.
  rewrite Hstep in Hle |- *.
  rewrite be_value_from_shift in Hle.
  pose proof (be_value_bound bs) as [Hb0 _].
  assert ((0 < 256 ^ Z.of_nat (length bs))%Z) by (apply Z.pow_pos_nonneg; lia).
  assert (Hacc2 : ((acc * 16 + Z.of_nat (n / 16)) * 16 + Z.of_nat (n mod 16) = acc * 256 + Z.of_nat n)%Z).
  { rewrite Hn at 3. rewrite Nat2Z.inj_add, Nat2Z.inj_mul. lia. }
  destruct (Z.ltb_spec u64_max (acc * 16 + Z.of_nat (n / 16))); [nia|].
  destruct (Z.ltb_spec u64_max ((acc * 16 + Z.of_nat (n / 16)) * 16 + Z.of_nat (n mod 16))); [nia|].
  rewrite Hacc2. apply IH; [lia|]. rewrite be_value_from_shift. exact Hle.
Qed.

Lemma hex_digit_range (d : nat) : d < 16 -> hex_val (hex_digit d) <> None.
Proof. intros H. rewrite hex_val_digit by exact H. discriminate. Qed.

Ltac ascii_cases c := destruct c as [[] [] [] [] [] [] [] []].

(** [trim_start_matches("0x")] stops at a string whose second character is a
    hex digit. *)
Lemma trim_start_0x_digit (c1 c2 : ascii) (rest : string) :
  hex_val c2 <> None -> trim_start_0x (String c1 (String c2 rest)) = String c1 (String c2 rest).
Proof.
  intros H. ascii_cases c1; try reflexivity. ascii_cases c2; try reflexivity.
  exfalso. apply H. reflexivity.
Qed.

Lemma u64_from_str_radix16_digit (c : ascii) (rest : string) :
  hex_val c <> None -> u64_from_str_radix16 (String c rest) = digits_radix16 0%Z (String c rest).
Proof.
  intros H. ascii_cases c; try reflexivity; exfalso; apply H; reflexivity.
Qed.

Lemma digits_radix16_bound : forall s acc n,
  (0 <= acc <= u64_max)%Z -> digits_radix16 acc s = Ok n -> (0 <= n <= u64_max)%Z.
Proof.
  induction s as [|c s IH]; intros acc n Hacc H; simpl in H.
  - inversion H; subst; exact Hacc.
  - destruct (hex_val c) as [d|]; [|discriminate].
    destruct (Z.ltb_spec u64_max (acc * 16 + Z.of_nat d)); [discriminate|].
    eapply IH; [|exact H]. lia.
Qed.

Lemma u64_from_str_radix16_bound (s : string) (n : Z) :
  u64_from_str_radix16 s = Ok n -> (0 <= n <= u64_max)%Z.
Proof.
  unfold u64_from_str_radix16. intros H.
  repeat match type of H with
         | context [match ?x with _ => _ end] => destruct x
         end; try discriminate;
    eapply digits_radix16_bound; try exact H; unfold u64_max; lia.
Qed.

Module HexExtras.

(** Every value [prefix_hex::encode] produces goes through [try_decode_hex]
    unchanged, whatever the label. *)
Theorem try_decode_hex_encode (label : string) (bs : bytes) :
  try_decode_hex label (prefix_hex_encode bs) = Ok bs.
Proof.
  unfold try_decode_hex.
  assert (He : Nat.even (String.length (prefix_hex_encode bs)) = true).
  { unfold prefix_hex_encode. rewrite string_length_app, hex_encode_length.
    change (String.length "0x") with 2.
    replace (2 + 2 * length bs) with (2 * (1 + length bs)) by lia.
    rewrite Nat.even_mul. reflexivity. }
  rewrite He. simpl negb. cbv iota. rewrite prefix_hex_decode_encode. reflexivity.
Qed.

(** A successful [try_decode_hex] returns one byte per two hex digits: an
    even-length input starts with [0x] and gives [(len - 2) / 2] bytes, an
    odd-length one gives [(len - 1) / 2] bytes (one nibble padded in). *)
Theorem try_decode_hex_length (label s : string) (bs : bytes) :
  try_decode_hex label s = Ok bs ->
  (Nat.even (String.length s) = true -> prefix "0x" s = true /\ 2 * length bs + 2 = String.length s)
  /\ (Nat.even (String.length s) = false -> 2 * length bs + 1 = String.length s).
Proof.
  unfold try_decode_hex. destruct (Nat.even (String.length s)) eqn:Ee; simpl negb; cbv iota.
  - intros H. apply map_err_Ok in H. split; [intros _ | discriminate].
    apply prefix_hex_decode_length. exact H.
  - unfold str_slice_from. destruct (is_char_boundary s 2) eqn:Eb; simpl; [|discriminate].
    intros H. apply map_err_Ok, prefix_hex_decode_length in H as [_ Hl].
    split; [discriminate | intros _].
    cbn [append String.length] in Hl.
    pose proof (char_boundary_length s 2 ltac:(lia) Eb).
    rewrite substring_length in Hl by lia. lia.
Qed.

(** The parity repair pads a zero nibble: the first byte decoded from an
    odd-length input is below 16. *)
Theorem try_decode_hex_odd_first_byte (label s : string) (b : Byte.byte) (bs : bytes) :
  Nat.even (String.length s) = false ->
  try_decode_hex label s = Ok (b :: bs) -> Byte.to_nat b < 16.
Proof.
  intros Ho. unfold try_decode_hex. rewrite Ho. simpl negb. cbv iota.
  unfold str_slice_from. destruct (is_char_boundary s 2); simpl; [|discriminate].
  intros H. apply map_err_Ok in H. revert H.
  generalize (substring 2 (String.length s - 2) s) as rest. intros rest.
  unfold prefix_hex_decode. simpl.
  replace (String.length rest - 0) with (String.length rest) by lia. rewrite substring_full.
  destruct rest as [|c rest]; simpl; [discriminate|].
  destruct (hex_val c) as [l|] eqn:Ec; [|discriminate].
  destruct (hex_decode rest); simpl; try discriminate.
  intros H. inversion H; subst. apply hex_val_lt in Ec.
  unfold byte_of_nat. simpl.
  destruct (Byte.of_nat l) as [b'|] eqn:Eb.
  - apply Byte.to_of_nat in Eb. lia.
  - apply Byte.of_nat_None_iff in Eb. lia.
Qed.

Lemma try_decode_hex_odd_first_byte_witness :
  Nat.even (String.length "0x5") = false /\ try_decode_hex "hash" "0x5" = Ok [Byte.x05]
  /\ Byte.to_nat Byte.x05 < 16.
Proof.
  split; [reflexivity|]. split; [reflexivity|].
  apply (try_decode_hex_odd_first_byte "hash" "0x5" Byte.x05 []); reflexivity.
Defined.

Lemma try_decode_hex_length_witness :
  (Nat.even (String.length "0x0a0b") = true ->
     prefix "0x" "0x0a0b" = true /\ 2 * length [Byte.x0a; Byte.x0b] + 2 = String.length "0x0a0b")
  /\ (Nat.even (String.length "0x0a0b") = false ->
     2 * length [Byte.x0a; Byte.x0b] + 1 = String.length "0x0a0b").
Proof. apply (try_decode_hex_length "tx hash"). reflexivity. Defined.

(** [qty2int] returns a [u64] (between 0 and [u64::MAX]), and strips any
    number of leading [0x]: the prefix is optional. *)
Theorem qty2int_range_and_prefix :
  (forall s n, qty2int s = Ok n -> (0 <= n <= u64_max)%Z)
  /\ (forall s, qty2int ("0x" ++ s) = qty2int s).
Proof.
  split.
  - intros s n. apply u64_from_str_radix16_bound.
  - intros s. reflexivity.
Qed.

(** A quantity written as [0x] followed by the hex digits of 1 to 8 bytes
    parses to the big-endian value of those bytes. *)
Theorem qty2int_encoded (bs : bytes) :
  1 <= length bs <= 8 -> qty2int (prefix_hex_encode bs) = Ok (be_value_from 0 bs).
Proof.
  intros Hl. unfold qty2int, prefix_hex_encode. cbn [append trim_start_0x].
  destruct bs as [|b bs']; [simpl in Hl; lia|].
  pose proof (Byte.to_nat_bounded b).
  cbn [hex_encode].
  rewrite trim_start_0x_digit by (apply hex_digit_range, Nat.mod_upper_bound; lia).
  rewrite u64_from_str_radix16_digit
    by (apply hex_digit_range, Nat.Div0.div_lt_upper_bound; lia).
  change (String (hex_digit (Byte.to_nat b / 16))
            (String (hex_digit (Byte.to_nat b mod 16)) (hex_encode bs')))
    with (hex_encode (b :: bs')).
  apply digits_radix16_hex_encode; [lia|].
  destruct (be_value_bound (b :: bs')) as [_ Hb].
  assert (256 ^ Z.of_nat (length (b :: bs')) <= 256 ^ 8)%Z
    by (apply Z.pow_le_mono_r; lia).
  unfold u64_max. lia.
Qed.

Lemma qty2int_encoded_witness :
  qty2int (prefix_hex_encode [Byte.x52; Byte.x08]) = Ok 21000%Z.
Proof. apply (qty2int_encoded [Byte.x52; Byte.x08]). simpl. lia. Defined.

End HexExtras.

(** ** Engine state *)

Lemma pow_2_64 : (2 ^ 64 = 18446744073709551616)%Z.
Proof. reflexivity. Qed.

Lemma u64_as_i64_round_trip (h : Z) :
  (0 <= h <= u64_max)%Z -> i64_as_u64 (u64_as_i64 h) = h.
Proof.
  unfold u64_as_i64, i64_as_u64, u64_max, i64_max. rewrite pow_2_64. intros H.
  destruct (Z.leb_spec h 9223372036854775807).
  - destruct (Z.leb_spec 0 h); lia.
  - destruct (Z.leb_spec 0 (h - 18446744073709551616)); lia.
Qed.

Module StateExtras.

(** [State::next_block] is one more than [State::current_block] while the
    height fits in an [i64] (and [0 = -1 + 1] for the empty state); above
    [i64::MAX] [current_block] is negative, and at [u64::MAX] [next_block]
    wraps to 0. *)
Theorem next_block_current_block :
  next_block None = (current_block None + 1)%Z
  /\ (forall v, (0 <= hh_height v <= i64_max)%Z ->
        next_block (Some v) = (current_block (Some v) + 1)%Z)
  /\ (forall v, (i64_max < hh_height v <= u64_max)%Z ->
        current_block (Some v) = (hh_height v - 2 ^ 64)%Z /\ (current_block (Some v) < 0)%Z)
  /\ (forall v, hh_height v = u64_max -> next_block (Some v) = 0%Z).
Proof.
  unfold next_block, current_block, u64_as_i64, i64_max, u64_max. rewrite pow_2_64.
  split; [reflexivity|]. split; [|split].
  - intros v Hv. destruct (Z.leb_spec (hh_height v) 9223372036854775807); [|lia].
    apply Z.mod_small. lia.
  - intros v Hv. destruct (Z.leb_spec (hh_height v) 9223372036854775807); [lia|].
    split; [reflexivity | lia].
  - intros v Hv. rewrite Hv. reflexivity.
Qed.

(** The stop test [state.current_block() as u64 == to_block] compares the
    state's height with the stop block exactly for every [u64] height; with
    no state yet, [-1 as u64] makes it fire exactly when the stop block is
    [u64::MAX]; without a stop block it never fires. *)
Theorem stop_reached_exact :
  (forall t v, (0 <= hh_height v <= u64_max)%Z ->
     stop_reached (Some t) (Some v) = Z.eqb (hh_height v) t)
  /\ (forall t, stop_reached (Some t) None = Z.eqb t u64_max)
  /\ (forall st, stop_reached None st = false).
Proof.
  split; [|split].
  - intros t v Hv. unfold stop_reached, current_block.
    rewrite u64_as_i64_round_trip by exact Hv. reflexivity.
  - intros t. unfold stop_reached, current_block, i64_as_u64, u64_max.
    rewrite pow_2_64. apply Z.eqb_sym.
  - intros st. reflexivity.
Qed.

End StateExtras.

(** ** The filter compiler *)

Lemma str_leb_compare (a b : string) : str_leb a b = true <-> String.compare a b <> Gt.
Proof. unfold str_leb. destruct (String.compare a b); split; congruence. Qed.

Lemma string_compare_le_trans : forall a b c,
  String.compare a b <> Gt -> String.compare b c <> Gt -> String.compare a c <> Gt.
Proof.
  induction a as [|x a IH]; intros [|y b] [|z c]; cbn [String.compare]; try congruence.
  unfold Ascii.compare.
  destruct (N.compare_spec (N_of_ascii x) (N_of_ascii y)) as [Hxy|Hxy|Hxy];
  destruct (N.compare_spec (N_of_ascii y) (N_of_ascii z)) as [Hyz|Hyz|Hyz];
  destruct (N.compare_spec (N_of_ascii x) (N_of_ascii z)) as [Hxz|Hxz|Hxz];
  intros Hab Hbc; try lia; try congruence; eauto.
Qed.

Lemma str_leb_trans (a b c : string) :
  str_leb a b = true -> str_leb b c = true -> str_leb a c = true.
Proof. rewrite !str_leb_compare. apply string_compare_le_trans. Qed.

Lemma str_leb_false (a b : string) : str_leb a b = false -> str_leb b a = true.
Proof.
  unfold str_leb. rewrite String.compare_antisym.
  destruct (String.compare b a); simpl; congruence.
Qed.

Lemma str_leb_antisym (a b : string) : str_leb a b = true -> str_leb b a = true -> a = b.
Proof. exact (String.leb_antisym a b). Qed.

Definition str_le (a b : string) : Prop := str_leb a b = true.

Lemma insert_sorted_perm (x : string) : forall l, Permutation (x :: l) (insert_sorted x l).
Proof.
  induction l as [|y l IH]; simpl; [reflexivity|].
  destruct (str_leb x y); [reflexivity|].
  transitivity (y :: x :: l); [constructor | constructor; exact IH].
Qed.

Lemma insert_sorted_hd (x y : string) (l : list string) :
  str_le y x -> HdRel str_le y l -> HdRel str_le y (insert_sorted x l).
Proof.
  intros Hyx Hl. destruct l as [|z l]; simpl; [constructor; exact Hyx|].
  destruct (str_leb x z); constructor; [exact Hyx | inversion Hl; assumption].
Qed.

Lemma insert_sorted_sorted (x : string) : forall l,
  Sorted str_le l -> Sorted str_le (insert_sorted x l).
Proof.
  induction l as [|y l IH]; simpl; intros Hs; [repeat constructor|].
  destruct (str_leb x y) eqn:E.
  - constructor; [exact Hs | constructor; exact E].
  - inversion Hs; subst. constructor; [apply IH; assumption|].
    apply insert_sorted_hd; [apply str_leb_false; exact E | assumption].
Qed.

Lemma sort_strings_sorted : forall l, Sorted str_le (sort_strings l).
Proof. induction l; simpl; [constructor | apply insert_sorted_sorted; assumption]. Qed.

Lemma sort_strings_perm : forall l, Permutation l (sort_strings l).
Proof.
  induction l as [|x l IH]; simpl; [reflexivity|].
  rewrite <- insert_sorted_perm. constructor. exact IH.
Qed.

Lemma str_le_Transitive : Relations_1.Transitive str_le.
Proof. intros a b c. apply str_leb_trans. Qed.

Lemma sorted_perm_unique : forall l1 l2,
  StronglySorted str_le l1 -> StronglySorted str_le l2 -> Permutation l1 l2 -> l1 = l2.
Proof.
  induction l1 as [|x l1 IH]; intros l2 S1 S2 P.
  - symmetry. apply Permutation_nil. exact P.
  - destruct l2 as [|y l2]; [apply Permutation_sym, Permutation_nil_cons in P; contradiction|].
    inversion S1 as [|? ? S1' F1]; inversion S2 as [|? ? S2' F2]; subst.
    assert (x = y) as <-.
    { destruct (String.eqb_spec x y) as [|Hne]; [assumption|].
      assert (Hx : In x (y :: l2)) by (apply (Permutation_in _ P); left; reflexivity).
      assert (Hy : In y (x :: l1)) by (apply (Permutation_in _ (Permutation_sym P)); left; reflexivity).
      destruct Hx as [Hx|Hx]; [congruence|]. destruct Hy as [Hy|Hy]; [congruence|].
      rewrite Forall_forall in F1, F2.
      apply str_leb_antisym; [apply F1 | apply F2]; assumption. }
    f_equal. apply IH; [assumption | assumption |].
    apply Permutation_cons_inv in P. exact P.
Qed.

Lemma sort_strings_eq_iff (l1 l2 : list string) :
  sort_strings l1 = sort_strings l2 <-> Permutation l1 l2.
Proof.
  split.
  - intros H. rewrite (sort_strings_perm l1), (sort_strings_perm l2), H. reflexivity.
  - intros P. apply sorted_perm_unique;
      [apply Sorted_StronglySorted; [exact str_le_Transitive | apply sort_strings_sorted] ..|].
    rewrite <- !sort_strings_perm. exact P.
Qed.

Lemma map_inj {A B} (f : A -> B) (Hf : forall a b, f a = f b -> a = b) :
  forall l1 l2, map f l1 = map f l2 -> l1 = l2.
Proof.
  induction l1 as [|x l1 IH]; intros [|y l2]; simpl; try discriminate; [reflexivity|].
  intros H. injection H as H1 H2. f_equal; [apply Hf | apply IH]; assumption.
Qed.

Lemma Permutation_map_inj {A B} (f : A -> B) (Hf : forall a b, f a = f b -> a = b)
    (l1 l2 : list A) :
  Permutation (map f l1) (map f l2) <-> Permutation l1 l2.
Proof.
  split; [|apply Permutation_map].
  intros P. apply Permutation_map_inv in P as [l3 [E P]].
  apply (map_inj f Hf) in E. subst. symmetry. exact P.
Qed.

Lemma merge_into_Forall {R} (key addr : R -> list string) (with_addr : R -> list string -> R)
    (P : R -> Prop) (Hw : forall x a, P x -> P (with_addr x a)) (r : R) (Hr : P r) :
  forall l, Forall P l -> Forall P (merge_into R key addr with_addr l r).
Proof.
  induction l as [|x l IH]; simpl; intros H; [constructor; [exact Hr | constructor]|].
  inversion H; subst. destruct (list_string_eqb (key x) (key r)).
  - constructor; [apply Hw |]; assumption.
  - constructor; [| apply IH]; assumption.
Qed.

Definition log_request_shape (r : LogRequest) : Prop :=
  lr_transaction r = true /\ lr_transaction_traces r = true /\ lr_transaction_logs r = true
  /\ Sorted str_le (lr_topic0 r).

Definition trace_request_shape (r : TraceRequest) : Prop :=
  trq_transaction r = true /\ trq_transaction_logs r = true /\ trq_parents r = true
  /\ Sorted str_le (trq_sighash r).

Lemma fold_merge_log_shape : forall fs logs,
  Forall log_request_shape logs -> Forall log_request_shape (fold_left merge_log fs logs).
Proof.
  induction fs as [|f fs IH]; simpl; intros logs H; [exact H|]. apply IH.
  unfold merge_log. apply merge_into_Forall; [| |exact H].
  - intros x a Hx. exact Hx.
  - unfold log_request_shape. simpl. repeat split. apply sort_strings_sorted.
Qed.

Lemma fold_merge_trace_shape : forall fs traces,
  Forall trace_request_shape traces -> Forall trace_request_shape (fold_left merge_trace fs traces).
Proof.
  induction fs as [|f fs IH]; simpl; intros traces H; [exact H|]. apply IH.
  unfold merge_trace. apply merge_into_Forall; [| |exact H].
  - intros x a Hx. exact Hx.
  - unfold trace_request_shape. simpl. repeat split. apply sort_strings_sorted.
Qed.

Module FilterExtras.

(** The transforms are accepted or rejected as a whole: if any of them sets
    [send_all_block_headers] the compiler fails with the same error, no
    matter where it sits; otherwise the result is that of merging all their
    log filters, and all their call filters, in order, as one flat list. *)
Theorem compile_transforms_flat (ts : list CombinedFilter) :
  forall logs traces,
  compile_transforms ts logs traces
  = if existsb cmb_send_all_block_headers ts
    then Err "send_all_block_headers isn't implemented for CombinedFilter"
    else Ok (fold_left merge_log (concat (map cmb_log_filters ts)) logs,
             fold_left merge_trace (concat (map cmb_call_filters ts)) traces).
Proof.
  induction ts as [|t ts IH]; intros logs traces; [reflexivity|].
  cbn [compile_transforms existsb map concat].
  destruct (cmb_send_all_block_headers t); [reflexivity|]. simpl orb.
  rewrite IH, !fold_left_app. reflexivity.
Qed.

(** Every compiled request asks for its transactions, traces and logs (or
    transactions, logs and parents), and carries its topic-0 (or sighash)
    list sorted. *)
Theorem compiled_requests_shape (ts : list CombinedFilter) (logs : list LogRequest)
    (traces : list TraceRequest) :
  compile_transforms ts [] [] = Ok (logs, traces) ->
  Forall log_request_shape logs /\ Forall trace_request_shape traces.
Proof.
  rewrite compile_transforms_flat. destruct (existsb _ ts); [discriminate|].
  intros H. injection H as <- <-.
  split; [apply fold_merge_log_shape | apply fold_merge_trace_shape]; constructor.
Qed.

Lemma compiled_requests_shape_witness :
  compile_transforms Samples.transforms_s6 [] []
  = Ok ([mkLogRequest ["0x01"; "0x02"] ["0x0a"] true true true], [])
  /\ Forall log_request_shape [mkLogRequest ["0x01"; "0x02"] ["0x0a"] true true true]
  /\ Forall trace_request_shape [].
Proof.
  assert (H : compile_transforms Samples.transforms_s6 [] []
              = Ok ([mkLogRequest ["0x01"; "0x02"] ["0x0a"] true true true], []))
    by (vm_compute; reflexivity).
  split; [exact H|]. exact (compiled_requests_shape _ _ _ H).
Defined.

(** Sorting makes the comparison of topic-0 (and sighash) lists blind to
    order and to nothing else: two log filters get the same sorted topic-0
    list exactly when their event signatures are permutations of each other,
    and likewise two call filters and their signatures. *)
Theorem sorted_keys_iff_permutation :
  (forall f1 f2 : LogFilter,
     lr_topic0 (sorted_log_request f1) = lr_topic0 (sorted_log_request f2)
     <-> Permutation (lf_event_signatures f1) (lf_event_signatures f2))
  /\ (forall f1 f2 : CallToFilter,
     trq_sighash (sorted_trace_request f1) = trq_sighash (sorted_trace_request f2)
     <-> Permutation (cf_signatures f1) (cf_signatures f2)).
Proof.
  split; intros f1 f2; simpl; rewrite sort_strings_eq_iff;
    apply Permutation_map_inj; exact prefix_hex_encode_inj.
Qed.

End FilterExtras.

(** ** The stream *)

Lemma bindM_assoc {A B C} (m : M A) (f : A -> M B) (g : B -> M C) :
  bindM (bindM m f) g = bindM m (fun a => bindM (f a) g).
Proof.
  destruct m as [out [a|e|p]]; cbn; [|reflexivity..].
  destruct (f a) as [out1 [b|e|p]]; cbn; [destruct (g b) as [out2 r]; cbn; rewrite app_assoc|..];
    reflexivity.
Qed.

Lemma bindM_ext {A B} (m : M A) (f g : A -> M B) :
  (forall a, f a = g a) -> bindM m f = bindM m g.
Proof. intros H. destruct m as [out [a|e|p]]; cbn; [rewrite H|..]; reflexivity. Qed.

Lemma drain_finalized_app : forall i1 st i2,
  drain_finalized st (i1 ++ i2) = bindM (drain_finalized st i1) (fun st' => drain_finalized st' i2).
Proof.
  induction i1 as [|it i1 IH]; intros st i2; cbn [drain_finalized app].
  - symmetry. exact (bind_lift_ok st (fun st' => drain_finalized st' i2)).
  - rewrite bindM_assoc. apply bindM_ext. intros bl.
    rewrite bindM_assoc. apply bindM_ext. intros st'. apply IH.
Qed.

(** The state after emitting [bl] from state [st]: the last block's, or
    [st] if [bl] is empty. *)
Definition last_block_state (st : State) (bl : list Block) : State :=
  match rev bl with [] => st | b :: _ => Some (hh_of_block b) end.

Lemma last_block_state_app (st : State) (l1 l2 : list Block) :
  last_block_state (last_block_state st l1) l2 = last_block_state st (l1 ++ l2).
Proof.
  unfold last_block_state. rewrite rev_app_distr.
  destruct (rev l2) as [|b l]; reflexivity.
Qed.

Lemma emit_finalized_state : forall (bl : list Block) (st st' : State),
  snd (emit_finalized st bl) = Ok st' -> st' = last_block_state st bl.
Proof.
  induction bl as [|b bs IH]; intros st st' H; cbn [emit_finalized] in *.
  - simpl in H. injection H as <-. reflexivity.
  - destruct (block_try_from b) as [g|e|p] eqn:Eg; simpl in H; try discriminate.
    destruct (emit_finalized (Some (hh_of_block b)) bs) as [out r] eqn:Eo. simpl in H.
    specialize (IH (Some (hh_of_block b)) st'). rewrite Eo in IH. specialize (IH H). subst st'.
    unfold last_block_state. simpl rev. destruct (rev bs); reflexivity.
Qed.

Lemma drain_finalized_state : forall batches (st st' : State),
  snd (drain_finalized st (map Ok batches)) = Ok st' -> st' = last_block_state st (concat batches).
Proof.
  induction batches as [|bl bss IH]; intros st st' H; cbn [drain_finalized map concat] in *.
  - simpl in H. injection H as <-. reflexivity.
  - rewrite bind_lift_ok in H. apply snd_bindM_Ok in H as [s [Hs H]].
    apply emit_finalized_state in Hs. apply IH in H. subst.
    apply last_block_state_app.
Qed.

Lemma HashAndHeight_eqb_refl (a : HashAndHeight) : HashAndHeight_eqb a a = true.
Proof. unfold HashAndHeight_eqb. rewrite Z.eqb_refl, String.eqb_refl. reflexivity. Qed.

Lemma phase_c_update_head (h : HashAndHeight) (u : HotUpdate) (nh : HashAndHeight) :
  snd (phase_c_update h u) = Ok nh -> nh = new_head_of u.
Proof.
  unfold phase_c_update. intros H.
  apply snd_bindM_Ok in H as [[] [_ H]]. apply snd_bindM_Ok in H as [[] [_ H]].
  simpl in H. congruence.
Qed.

(** Updates that each extend the head left by the previous one. *)
Fixpoint chained (h : HashAndHeight) (upds : list HotUpdate) : Prop :=
  match upds with
  | [] => True
  | u :: us => upd_base_head u = h /\ chained (new_head_of u) us
  end.

Lemma blocks_stream_no_rpc (portal : DataSource) (start : Z) (to_block : option Z) (st : State)
    (logs : list LogRequest) (traces : list TraceRequest) (hp : Z)
    (items : list (res (list Block))) :
  get_finalized_height portal = Ok hp ->
  get_finalized_blocks portal
    (mkDataRequest (Z.max (next_block st) start) to_block logs [] traces) false = Ok items ->
  fst (blocks_stream portal None start to_block st logs traces) = fst (drain_finalized st items).
Proof.
  intros Hh Hb. unfold blocks_stream. rewrite fst_bindM.
  assert (Ha : fst (phase_a portal None start to_block st logs traces)
               = fst (drain_finalized st items)).
  { unfold phase_a. rewrite Hh, bind_lift_ok. cbn [is_some negb]. rewrite orb_true_r.
    cbv zeta. rewrite Hb, bind_lift_ok, fst_bindM.
    destruct (snd (drain_finalized st items)); rewrite ?check_stop_fst, app_nil_r; reflexivity. }
  rewrite Ha. destruct (snd (phase_a portal None start to_block st logs traces)) as [[s|s]|e|p];
    apply app_nil_r.
Qed.

Module StreamExtras.

(** Draining a stream is compositional: draining the concatenation of two
    runs of items is draining the first, then the second from the state it
    left; an [Err] item ends the drain with that error, and no item after it
    is read. *)
Theorem drain_finalized_compose :
  (forall i1 i2 st,
     drain_finalized st (i1 ++ i2) = bindM (drain_finalized st i1) (fun st' => drain_finalized st' i2))
  /\ (forall st e rest, drain_finalized st (Err e :: rest) = ([], Err e)).
Proof.
  split; [intros i1 i2 st; apply drain_finalized_app | reflexivity].
Qed.

(** A drain that ends without error consumed only block batches; it emitted
    one NEW response per delivered block, in order, each carrying that
    block's encoding, and it leaves the state at the last delivered block (or
    unchanged if no block came). *)
Theorem drain_finalized_run (st st' : State) (items : list (res (list Block))) :
  snd (drain_finalized st items) = Ok st' ->
  exists batches, items = map Ok batches
    /\ Forall2 new_response_of (concat batches) (fst (drain_finalized st items))
    /\ st' = last_block_state st (concat batches).
Proof.
  intros H. destruct (drain_finalized_complete items st st' H) as [batches [Hi Hf]].
  exists batches. split; [exact Hi|]. split; [exact Hf|].
  subst items. apply drain_finalized_state. exact H.
Qed.

Lemma drain_finalized_run_witness :
  snd (drain_finalized None [Ok [Samples.block_with_traces [Samples.reverted_call_trace]]])
  = Ok (Some (mkHashAndHeight 100 "0xaa"))
  /\ exists batches,
       [Ok [Samples.block_with_traces [Samples.reverted_call_trace]]] = map Ok batches
       /\ Forall2 new_response_of (concat batches)
            (fst (drain_finalized None [Ok [Samples.block_with_traces [Samples.reverted_call_trace]]]))
       /\ Some (mkHashAndHeight 100 "0xaa") = last_block_state None (concat batches).
Proof.
  assert (H : snd (drain_finalized None [Ok [Samples.block_with_traces [Samples.reverted_call_trace]]])
              = Ok (Some (mkHashAndHeight 100 "0xaa"))) by (vm_compute; reflexivity).
  split; [exact H|]. exact (drain_finalized_run _ _ _ H).
Defined.

(** In phase C, as long as every update extends the head the previous one
    left (its [base_head] is the last block of the previous update, or that
    update's own [base_head] when it brought no block), no UNDO is emitted:
    every response is NEW. *)
Theorem phase_c_chained_no_undo : forall (upds : list HotUpdate) (h : HashAndHeight),
  chained h upds ->
  Forall (fun r => resp_step r = StepNew) (fst (phase_c_loop h (map Ok upds))).
Proof.
  induction upds as [|u us IH]; intros h Hc; cbn [phase_c_loop map]; [constructor|].
  destruct Hc as [Hb Hc]. rewrite bind_lift_ok. apply Forall_bindM.
  - unfold phase_c_update. rewrite Hb, HashAndHeight_eqb_refl. cbn [negb].
    apply Forall_bindM; [constructor|]. intros [] _.
    apply Forall_bindM; [|intros; constructor].
    eapply Forall_impl; [|apply emit_hot_responses]. simpl. tauto.
  - intros nh Hnh. apply phase_c_update_head in Hnh. subst nh. apply IH. exact Hc.
Qed.

Lemma phase_c_chained_no_undo_witness :
  chained Samples.hh99
    [mkHotUpdate Samples.hh99 Samples.hh99 [Samples.block_with_traces [Samples.reverted_call_trace]];
     mkHotUpdate (mkHashAndHeight 100 "0xaa") Samples.hh99 []]
  /\ Forall (fun r => resp_step r = StepNew)
       (fst (phase_c_loop Samples.hh99
          (map Ok [mkHotUpdate Samples.hh99 Samples.hh99
                     [Samples.block_with_traces [Samples.reverted_call_trace]];
                   mkHotUpdate (mkHashAndHeight 100 "0xaa") Samples.hh99 []]))).
Proof.
  assert (H : chained Samples.hh99
    [mkHotUpdate Samples.hh99 Samples.hh99 [Samples.block_with_traces [Samples.reverted_call_trace]];
     mkHotUpdate (mkHashAndHeight 100 "0xaa") Samples.hh99 []])
    by (simpl; repeat split).
  split; [exact H|]. exact (phase_c_chained_no_undo _ _ H).
Defined.

(** Without an RPC adapter the stream is phase A alone: whatever the
    portal's finalized height, the portal is asked for the blocks from
    [max(next_block, start)] to the stop block, and the stream's responses are
    exactly those of draining that answer. *)
Theorem no_rpc_portal_only (portal : DataSource) (start : Z) (to_block : option Z) (st : State)
    (logs : list LogRequest) (traces : list TraceRequest) (hp : Z)
    (items : list (res (list Block))) :
  get_finalized_height portal = Ok hp ->
  get_finalized_blocks portal
    (mkDataRequest (Z.max (next_block st) start) to_block logs [] traces) false = Ok items ->
  fst (blocks_stream portal None start to_block st logs traces) = fst (drain_finalized st items).
Proof. apply blocks_stream_no_rpc. Qed.

Lemma no_rpc_portal_only_witness :
  fst (blocks_stream (Samples.source_at 100) None 0 None None [] [])
  = fst (drain_finalized None [Ok [Samples.block_with_traces [Samples.reverted_call_trace]]]).
Proof. apply (no_rpc_portal_only _ _ _ _ _ _ 100%Z); reflexivity. Defined.

End StreamExtras.

(** ** The encoder's maps *)

(** [HashMap::get]: the value [HashMap::remove] would return. *)
Definition hm_get {A} (k : N) (m : list (N * list A)) : option (list A) := fst (hm_remove k m).
Arguments hm_get : simpl never.

Definition hm_keys {A} (m : list (N * list A)) : list N := map fst m.

Lemma hm_get_nil {A} (k : N) : hm_get k ([] : list (N * list A)) = None.
Proof. reflexivity. Qed.

Lemma hm_get_cons {A} (k k' : N) (xs : list A) rest :
  hm_get k ((k', xs) :: rest) = if N.eqb k k' then Some xs else hm_get k rest.
Proof.
  unfold hm_get. cbn [hm_remove]. destruct (N.eqb k k'); [reflexivity|].
  destruct (hm_remove k rest); reflexivity.
Qed.

Lemma hm_get_push {A} (j k : N) (x : A) : forall m,
  option_default [] (hm_get j (hm_push k x m))
  = if N.eqb j k then (option_default [] (hm_get j m) ++ [x])%list
    else option_default [] (hm_get j m).
Proof.
  induction m as [|[k' xs] rest IH]; cbn [hm_push].
  - rewrite hm_get_cons, hm_get_nil. destruct (N.eqb j k); reflexivity.
  - destruct (N.eqb_spec k k') as [<-|Hne].
    + rewrite !hm_get_cons. destruct (N.eqb j k); reflexivity.
    + rewrite !hm_get_cons. destruct (N.eqb_spec j k') as [->|Hjk'].
      * destruct (N.eqb_spec k' k); [congruence | reflexivity].
      * exact IH.
Qed.

Lemma fold_push_get {A} (idx : A -> N) (k : N) : forall l m,
  option_default [] (hm_get k (fold_left (fun m x => hm_push (idx x) x m) l m))
  = (option_default [] (hm_get k m) ++ filter (fun x => N.eqb (idx x) k) l)%list.
Proof.
  induction l as [|x l IH]; intros m; cbn [fold_left filter]; [rewrite app_nil_r; reflexivity|].
  rewrite IH, hm_get_push, (N.eqb_sym k (idx x)).
  destruct (N.eqb (idx x) k); [rewrite <- app_assoc|]; reflexivity.
Qed.

Lemma group_by_tx_get {A} (idx : A -> N) (k : N) (l : list A) :
  option_default [] (hm_get k (group_by_tx idx l)) = filter (fun x => N.eqb (idx x) k) l.
Proof. unfold group_by_tx. rewrite fold_push_get, hm_get_nil. reflexivity. Qed.

Lemma hm_push_keys {A} (k : N) (x : A) : forall m j,
  In j (hm_keys (hm_push k x m)) <-> j = k \/ In j (hm_keys m).
Proof.
  induction m as [|[k' xs] rest IH]; intros j; cbn [hm_push].
  - simpl. intuition congruence.
  - destruct (N.eqb_spec k k') as [<-|Hne]; simpl; [intuition congruence|].
    unfold hm_keys in IH. rewrite IH. intuition congruence.
Qed.

Lemma hm_push_NoDup {A} (k : N) (x : A) : forall m,
  NoDup (hm_keys m) -> NoDup (hm_keys (hm_push k x m)).
Proof.
  induction m as [|[k' xs] rest IH]; intros H; cbn [hm_push].
  - constructor; [intros []|constructor].
  - destruct (N.eqb_spec k k') as [<-|Hne]; [exact H|].
    inversion H as [|? ? Hn Hr]; subst. simpl. constructor; [|apply IH; exact Hr].
    rewrite hm_push_keys. intros [E|Hin]; [congruence | contradiction].
Qed.

Lemma group_by_tx_NoDup {A} (idx : A -> N) (l : list A) : NoDup (hm_keys (group_by_tx idx l)).
Proof.
  unfold group_by_tx. assert (H : NoDup (hm_keys ([] : list (N * list A)))) by constructor.
  revert H. generalize ([] : list (N * list A)).
  induction l as [|x l IH]; intros m H; simpl; [exact H|]. apply IH, hm_push_NoDup, H.
Qed.

Lemma hm_remove_get_other {A} (j k : N) : forall (m : list (N * list A)),
  j <> k -> hm_get j (snd (hm_remove k m)) = hm_get j m.
Proof.
  induction m as [|[k' xs] rest IH]; intros Hjk; cbn [hm_remove]; [reflexivity|].
  destruct (N.eqb_spec k k') as [<-|Hne].
  - simpl. rewrite hm_get_cons. destruct (N.eqb_spec j k); [contradiction | reflexivity].
  - destruct (hm_remove k rest) as [r rest'] eqn:E. simpl. rewrite !hm_get_cons.
    destruct (N.eqb j k'); [reflexivity|]. exact (IH Hjk).
Qed.

Lemma hm_remove_keys {A} (k : N) : forall (m : list (N * list A)) j,
  In j (hm_keys (snd (hm_remove k m))) -> In j (hm_keys m).
Proof.
  induction m as [|[k' xs] rest IH]; intros j; cbn [hm_remove]; [tauto|].
  destruct (N.eqb k k'); [simpl; tauto|].
  destruct (hm_remove k rest) as [r rest'] eqn:E. simpl. intros [H|H]; [left; exact H|].
  right. apply IH. exact H.
Qed.

Lemma hm_remove_NoDup {A} (k : N) : forall (m : list (N * list A)),
  NoDup (hm_keys m) ->
  NoDup (hm_keys (snd (hm_remove k m))) /\ ~ In k (hm_keys (snd (hm_remove k m))).
Proof.
  induction m as [|[k' xs] rest IH]; intros H; cbn [hm_remove]; [simpl; split; [constructor | tauto]|].
  inversion H as [|? ? Hn Hr]; subst.
  destruct (N.eqb_spec k k') as [<-|Hne]; [simpl; split; assumption|].
  destruct (IH Hr) as [IH1 IH2]. destruct (hm_remove k rest) as [r rest'] eqn:E. simpl in *.
  split.
  - constructor; [|exact IH1]. intros Hin. apply Hn.
    apply (hm_remove_keys k rest). rewrite E. exact Hin.
  - intros [E'|Hin]; [congruence | contradiction].
Qed.

Lemma hm_get_notin {A} (k : N) : forall (m : list (N * list A)),
  ~ In k (hm_keys m) -> hm_get k m = None.
Proof.
  induction m as [|[k' xs] rest IH]; intros H; [reflexivity|].
  rewrite hm_get_cons. simpl in H. destruct (N.eqb_spec k k'); [subst; tauto|].
  apply IH. tauto.
Qed.

(** The two closures of lines 657-676. *)
Definition convert_log (l : Log) : res pb_Log :=
  map_err (fun _ => "log_index: " ++ string_of_N (log_log_index l)) (log_try_from l).

Definition is_call_or_create (t : Trace) : bool :=
  match trace_type t with TT_Call | TT_Create => true | TT_Reward | TT_Suicide => false end.

Lemma zeros_bloom : prefix_hex_decode ("0x" ++ zeros_512) = Ok (repeat Byte.x00 256).
Proof. vm_compute. reflexivity. Qed.

(** What [encode_tx] makes of transaction [tx], given the logs and traces
    it finds under its index. *)
Definition tx_encoded_from (tx_logs : list Log) (tx_traces : list Trace)
    (tx : Transaction) (t : pb_TransactionTrace) : Prop :=
  collect_res call_try_from (filter is_call_or_create tx_traces) = Ok (tt_calls t)
  /\ tt_calls t <> []
  /\ exists r t0, tt_receipt t = Some r
     /\ collect_res convert_log tx_logs = Ok (rcpt_logs r)
     /\ rcpt_state_root r = [] /\ rcpt_logs_bloom r = repeat Byte.x00 256
     /\ qty2int (tx_cumulative_gas_used tx) = Ok (rcpt_cumulative_gas_used r)
     /\ transaction_try_from tx = Ok t0
     /\ tt_index t = tt_index t0 /\ tt_nonce t = tt_nonce t0 /\ tt_to t = tt_to t0
     /\ tt_hash t = tt_hash t0 /\ tt_from t = tt_from t0.

Lemma encode_tx_facts lm tm tx t lm' tm' :
  encode_tx lm tm tx = Ok (t, lm', tm') ->
  lm' = snd (hm_remove (tx_transaction_index tx) lm)
  /\ tm' = snd (hm_remove (tx_transaction_index tx) tm)
  /\ tx_encoded_from (option_default [] (hm_get (tx_transaction_index tx) lm))
                     (option_default [] (hm_get (tx_transaction_index tx) tm)) tx t.
Proof.
  unfold encode_tx. intros H. res_step H.
  destruct a as [[[[calls rcpt] txt] lm1] tm1].
  unfold encode_tx_pre in E. rewrite zeros_bloom in E.
  destruct (hm_remove (tx_transaction_index tx) lm) as [tx_logs lm2] eqn:El.
  destruct (collect_res _ (option_default [] tx_logs)) as [logs|e|p] eqn:Elogs;
    simpl in E; try discriminate.
  destruct (hm_remove (tx_transaction_index tx) tm) as [tx_traces tm2] eqn:Et.
  destruct (collect_res call_try_from _) as [cs|e|p] eqn:Ecalls; simpl in E; try discriminate.
  destruct (qty2int (tx_cumulative_gas_used tx)) as [cum|e|p] eqn:Ecum; simpl in E; try discriminate.
  destruct (transaction_try_from tx) as [t0|e|p] eqn:Et0; simpl in E; try discriminate.
  injection E as <- <- <- <- <-.
  destruct cs as [|c cs]; [simpl in H; discriminate|].
  rewrite get_tx_trace_status_cons in H. simpl in H. injection H as <- <- <-.
  unfold hm_get. rewrite El, Et. split; [reflexivity|]. split; [reflexivity|].
  split; [exact Ecalls|]. split; [discriminate|].
  exists (mk_pb_TransactionReceipt [] cum (repeat Byte.x00 256) logs), t0. simpl.
  repeat split; try reflexivity; assumption.
Qed.

Lemma encode_txs_keys : forall txs lm tm ts,
  NoDup (hm_keys tm) -> encode_txs lm tm txs = Ok ts ->
  NoDup (map tx_transaction_index txs)
  /\ Forall (fun tx => In (tx_transaction_index tx) (hm_keys tm)) txs.
Proof.
  induction txs as [|tx txs IH]; intros lm tm ts Hn H; cbn [encode_txs] in H.
  - split; constructor.
  - res_step H. destruct a as [[t lm1] tm1]. res_step H.
    destruct (encode_tx_facts _ _ _ _ _ _ E) as [_ [Htm [Hcalls [Hne _]]]].
    assert (Hin : In (tx_transaction_index tx) (hm_keys tm)).
    { destruct (in_dec N.eq_dec (tx_transaction_index tx) (hm_keys tm)) as [Hi|Hi]; [exact Hi|].
      rewrite (hm_get_notin _ _ Hi) in Hcalls. simpl in Hcalls. injection Hcalls as Hc.
      congruence. }
    subst tm1. destruct (hm_remove_NoDup (tx_transaction_index tx) tm Hn) as [Hn1 Hk].
    destruct (IH _ _ _ Hn1 E0) as [Hnd Hall].
    split.
    + simpl. constructor; [|exact Hnd]. intros Hm. apply in_map_iff in Hm as [tx' [Heq Htx']].
      rewrite Forall_forall in Hall. apply Hk. specialize (Hall tx' Htx').
      rewrite Heq in Hall. exact Hall.
    + constructor; [exact Hin|]. eapply Forall_impl; [|exact Hall]. intros tx'.
      apply hm_remove_keys.
Qed.

Lemma encode_txs_groups : forall txs lm tm ts lm0 tm0,
  encode_txs lm tm txs = Ok ts -> NoDup (map tx_transaction_index txs) ->
  (forall tx, In tx txs ->
     hm_get (tx_transaction_index tx) lm = hm_get (tx_transaction_index tx) lm0
     /\ hm_get (tx_transaction_index tx) tm = hm_get (tx_transaction_index tx) tm0) ->
  Forall2 (fun tx t => tx_encoded_from (option_default [] (hm_get (tx_transaction_index tx) lm0))
                                       (option_default [] (hm_get (tx_transaction_index tx) tm0))
                                       tx t)
          txs ts.
Proof.
  induction txs as [|tx txs IH]; intros lm tm ts lm0 tm0 H Hnd Hg; cbn [encode_txs] in H.
  - injection H as <-. constructor.
  - res_step H. destruct a as [[t lm1] tm1]. res_step H. injection H as <-.
    destruct (encode_tx_facts _ _ _ _ _ _ E) as [Hlm [Htm Hf]].
    simpl in Hnd. inversion Hnd as [|? ? Hni Hnd']; subst.
    destruct (Hg tx (or_introl eq_refl)) as [Hl Ht].
    constructor.
    + rewrite <- Hl, <- Ht. exact Hf.
    + apply (IH (snd (hm_remove (tx_transaction_index tx) lm))
                (snd (hm_remove (tx_transaction_index tx) tm))); [exact E0 | exact Hnd' |].
      intros tx' Hin. assert (Hne : tx_transaction_index tx' <> tx_transaction_index tx).
      { intros Heq. apply Hni. rewrite <- Heq. apply in_map. exact Hin. }
      rewrite !hm_remove_get_other by exact Hne.
      apply Hg. right. exact Hin.
Qed.

Lemma header_try_from_facts (v : BlockHeader) (h : pb_BlockHeader) :
  header_try_from v = Ok h ->
  (bh_timestamp v <= i64_max)%Z /\ pbh_timestamp h = Some (bh_timestamp v)
  /\ pbh_number h = bh_number v
  /\ try_decode_hex "hash" (bh_hash v) = Ok (pbh_hash h)
  /\ (exists d, pbh_difficulty h = Some d) /\ (exists d, pbh_total_difficulty h = Some d).
Proof.
  unfold header_try_from. intros H. repeat res_step H. injection H as <-. simpl.
  match goal with Ht : i64_try_from_u64 _ = Ok _ |- _ =>
    unfold i64_try_from_u64 in Ht;
    destruct (Z.leb_spec (bh_timestamp v) i64_max); [injection Ht as <- | discriminate] end.
  repeat split; eauto.
Qed.

Lemma zero_address_decode : try_decode_hex "tx to" zero_address = Ok (repeat Byte.x00 20).
Proof. vm_compute. reflexivity. Qed.

Lemma encode_txs_length : forall txs lm tm ts,
  encode_txs lm tm txs = Ok ts -> length ts = length txs.
Proof.
  induction txs as [|tx txs IH]; intros lm tm ts H; cbn [encode_txs] in H.
  - injection H as <-. reflexivity.
  - res_step H. destruct a as [[t lm1] tm1]. res_step H. injection H as <-.
    simpl. f_equal. eapply IH. eassumption.
Qed.

Module EncoderExtras.

(** A converted block has version 2, the header's number and size, one
    transaction trace per transaction, and a header converted from the
    block's own; the block hash and the header hash are the same bytes. *)
Theorem block_try_from_fields (b : Block) (pb : pb_Block) :
  block_try_from b = Ok pb ->
  pb_ver pb = 2%Z /\ pb_number pb = bh_number (blk_header b) /\ pb_size pb = bh_size (blk_header b)
  /\ length (pb_transaction_traces pb) = length (blk_transactions b)
  /\ exists h, pb_header pb = Some h /\ header_try_from (blk_header b) = Ok h
       /\ pbh_hash h = pb_hash pb /\ pbh_number h = pb_number pb.
Proof.
  unfold block_try_from. intros H.
  destruct (encode_txs _ _ _) as [ts|e|p] eqn:Ets; simpl in H; try discriminate.
  destruct (try_decode_hex "hash" _) as [hash|e|p] eqn:Eh; simpl in H; try discriminate.
  destruct (header_try_from _) as [h|e|p] eqn:Ehd; simpl in H; try discriminate.
  injection H as <-. simpl.
  destruct (header_try_from_facts _ _ Ehd) as [_ [_ [Hn [Hh _]]]].
  split; [reflexivity|]. split; [reflexivity|]. split; [reflexivity|].
  split; [eapply encode_txs_length; eassumption|].
  exists h. repeat split; [congruence | exact Hn].
Qed.

Lemma block_try_from_fields_witness :
  exists pb, block_try_from Samples.block_two_txs = Ok pb
  /\ pb_ver pb = 2%Z /\ pb_number pb = bh_number (blk_header Samples.block_two_txs)
  /\ pb_size pb = bh_size (blk_header Samples.block_two_txs)
  /\ length (pb_transaction_traces pb) = length (blk_transactions Samples.block_two_txs)
  /\ exists h, pb_header pb = Some h /\ header_try_from (blk_header Samples.block_two_txs) = Ok h
       /\ pbh_hash h = pb_hash pb /\ pbh_number h = pb_number pb.
Proof.
  exists (match block_try_from Samples.block_two_txs with
          | Ok pb => pb | _ => pb_Block_default end).
  split; [vm_compute; reflexivity|].
  apply (block_try_from_fields Samples.block_two_txs). vm_compute. reflexivity.
Defined.

(** The header conversion accepts only timestamps that fit in an [i64]
    and stores them unchanged as seconds; difficulty and total difficulty
    are always present. *)
Theorem header_try_from_timestamp (v : BlockHeader) (h : pb_BlockHeader) :
  header_try_from v = Ok h ->
  (bh_timestamp v <= i64_max)%Z /\ pbh_timestamp h = Some (bh_timestamp v)
  /\ (exists d, pbh_difficulty h = Some d) /\ (exists d, pbh_total_difficulty h = Some d).
Proof.
  intros H. destruct (header_try_from_facts v h H) as [H1 [H2 [_ [_ [H3 H4]]]]].
  auto.
Qed.

Lemma header_try_from_timestamp_witness :
  exists h, header_try_from Samples.header100 = Ok h
  /\ (bh_timestamp Samples.header100 <= i64_max)%Z
  /\ pbh_timestamp h = Some (bh_timestamp Samples.header100)
  /\ (exists d, pbh_difficulty h = Some d) /\ (exists d, pbh_total_difficulty h = Some d).
Proof.
  exists (match header_try_from Samples.header100 with
          | Ok h => h | _ => pb_BlockHeader_default end).
  split; [vm_compute; reflexivity|].
  apply (header_try_from_timestamp Samples.header100). vm_compute. reflexivity.
Defined.

(** [TransactionTrace::try_from] fills status [Unknown], no receipt, no
    calls and zero ordinals (the block conversion overwrites the first
    three); it copies index, nonce and type, and a transaction without [to]
    gets the 20 zero bytes of the zero address. *)
Theorem transaction_try_from_fields (tx : Transaction) (t : pb_TransactionTrace) :
  transaction_try_from tx = Ok t ->
  tt_status t = status_to_i32 Unknown /\ tt_receipt t = None /\ tt_calls t = []
  /\ tt_begin_ordinal t = 0%Z /\ tt_end_ordinal t = 0%Z
  /\ tt_index t = tx_transaction_index tx /\ tt_nonce t = tx_nonce tx /\ tt_type t = tx_type tx
  /\ (tx_to tx = None -> tt_to t = repeat Byte.x00 20).
Proof.
  unfold transaction_try_from. intros H.
  destruct (try_decode_hex "tx to" _) as [to|e|p] eqn:Eto; simpl in H; try discriminate.
  repeat res_step H. injection H as <-. simpl.
  repeat split; try reflexivity.
  intros Hn. rewrite Hn, zero_address_decode in Eto. injection Eto as <-. reflexivity.
Qed.

Lemma transaction_try_from_fields_witness :
  exists t, transaction_try_from Samples.tx0 = Ok t
  /\ tt_status t = status_to_i32 Unknown /\ tt_receipt t = None /\ tt_calls t = []
  /\ tt_begin_ordinal t = 0%Z /\ tt_end_ordinal t = 0%Z
  /\ tt_index t = tx_transaction_index Samples.tx0 /\ tt_nonce t = tx_nonce Samples.tx0
  /\ tt_type t = tx_type Samples.tx0
  /\ (tx_to Samples.tx0 = None -> tt_to t = repeat Byte.x00 20).
Proof.
  exists (match transaction_try_from Samples.tx0 with
          | Ok t => t | _ => mk_pb_TransactionTrace [] 0 None 0 0 None [] [] [] [] 0 None None
                                 0 [] [] 0 0 0 None [] end)%Z.
  split; [vm_compute; reflexivity|].
  apply (transaction_try_from_fields Samples.tx0). vm_compute. reflexivity.
Defined.

(** [Call::try_from]: a Create call has call type 5 and empty return data
    and input; a Call takes its call type from the action's type (0 when
    absent); the failure reason is empty unless the call failed, and is the
    error when there is one; gas limit and gas used are [u64]s. *)
Theorem call_try_from_fields (t : Trace) (c : pb_Call) :
  call_try_from t = Ok c ->
  (trace_type t = TT_Create ->
     call_call_type c = 5%Z /\ call_return_data c = [] /\ call_input c = [])
  /\ (trace_type t = TT_Call ->
     exists a, trace_action t = Some a /\ call_call_type c = call_type_code (ta_type a))
  /\ (call_status_failed c = false -> call_failure_reason c = "")
  /\ (forall e, trace_error t = Some e -> call_failure_reason c = e)
  /\ (0 <= call_gas_limit c <= u64_max)%Z /\ (0 <= call_gas_consumed c <= u64_max)%Z.
Proof.
  unfold call_try_from. intros H.
  assert (Hfr : forall b, b = is_some (trace_error t) || is_some (trace_revert_reason t) ->
            (b = false -> failure_reason_of t = "")
            /\ (forall e, trace_error t = Some e -> failure_reason_of t = e)).
  { intros b ->. unfold failure_reason_of.
    destruct (trace_error t), (trace_revert_reason t); simpl; split; congruence. }
  destruct (trace_type t) eqn:Ety; try discriminate.
  - destruct (context "no action" (trace_action t)) as [a|e|p] eqn:Ea; simpl in H; try discriminate.
    repeat res_step H. injection H as <-. simpl.
    destruct (Hfr _ eq_refl) as [Hf1 Hf2].
    repeat match goal with Hg : u64_from_str_radix16 _ = Ok _ |- _ =>
      apply u64_from_str_radix16_bound in Hg end.
    repeat split; try discriminate; auto; try lia.
  - destruct (context "no action" (trace_action t)) as [a|e|p] eqn:Ea; simpl in H; try discriminate.
    repeat res_step H. injection H as <-. simpl.
    destruct (Hfr _ eq_refl) as [Hf1 Hf2].
    repeat match goal with Hg : u64_from_str_radix16 _ = Ok _ |- _ =>
      apply u64_from_str_radix16_bound in Hg end.
    unfold context in Ea. destruct (trace_action t) as [a'|]; [injection Ea as <- | discriminate].
    repeat split; try discriminate; eauto; try lia.
Qed.

Lemma call_try_from_fields_witness :
  exists c, call_try_from Samples.reverted_call_trace = Ok c
  /\ (trace_type Samples.reverted_call_trace = TT_Create ->
        call_call_type c = 5%Z /\ call_return_data c = [] /\ call_input c = [])
  /\ (trace_type Samples.reverted_call_trace = TT_Call ->
        exists a, trace_action Samples.reverted_call_trace = Some a
                  /\ call_call_type c = call_type_code (ta_type a))
  /\ (call_status_failed c = false -> call_failure_reason c = "")
  /\ (forall e, trace_error Samples.reverted_call_trace = Some e -> call_failure_reason c = e)
  /\ (0 <= call_gas_limit c <= u64_max)%Z /\ (0 <= call_gas_consumed c <= u64_max)%Z.
Proof.
  exists (match call_try_from Samples.reverted_call_trace with
          | Ok c => c | _ => mk_pb_Call 0 [] [] None 0 0 [] [] false false "" false end)%Z.
  split; [vm_compute; reflexivity|].
  apply (call_try_from_fields Samples.reverted_call_trace). vm_compute. reflexivity.
Defined.



(** In a converted block, each transaction's receipt holds exactly the
    block's logs carrying its index, in block order (logs under an index no
    transaction has are dropped), and its calls are exactly the block's Call
    and Create traces carrying its index, in block order (Suicide and Reward
    traces are dropped). The receipt has an empty state root, a bloom of 256
    zero bytes and the parsed cumulative gas; index, nonce, [to], hash and
    [from] are those of [TransactionTrace::try_from]. *)
Theorem block_tx_grouping (b : Block) (pb : pb_Block) :
  block_try_from b = Ok pb ->
  Forall2 (fun tx t =>
             tx_encoded_from
               (filter (fun l => N.eqb (log_transaction_index l) (tx_transaction_index tx)) (blk_logs b))
               (filter (fun tr => N.eqb (trace_transaction_index tr) (tx_transaction_index tx))
                       (blk_traces b))
               tx t)
          (blk_transactions b) (pb_transaction_traces pb).
Proof.
  unfold block_try_from. intros H.
  destruct (encode_txs _ _ _) as [ts|e|p] eqn:Ets; simpl in H; try discriminate.
  repeat res_step H. injection H as <-. simpl.
  pose proof (proj1 (encode_txs_keys _ _ _ _ (group_by_tx_NoDup _ _) Ets)) as Hnd.
  eapply Forall2_impl; [|exact (encode_txs_groups _ _ _ _ _ _ Ets Hnd (fun _ _ => conj eq_refl eq_refl))].
  intros tx t Hf. cbv beta in Hf |- *. rewrite !group_by_tx_get in Hf. exact Hf.
Qed.

Lemma block_tx_grouping_witness :
  exists pb, block_try_from Samples.block_two_txs = Ok pb
  /\ Forall2 (fun tx t =>
             tx_encoded_from
               (filter (fun l => N.eqb (log_transaction_index l) (tx_transaction_index tx))
                       (blk_logs Samples.block_two_txs))
               (filter (fun tr => N.eqb (trace_transaction_index tr) (tx_transaction_index tx))
                       (blk_traces Samples.block_two_txs))
               tx t)
          (blk_transactions Samples.block_two_txs) (pb_transaction_traces pb).
Proof.
  exists (match block_try_from Samples.block_two_txs with
          | Ok pb => pb | _ => pb_Block_default end).
  split; [vm_compute; reflexivity|].
  apply (block_tx_grouping Samples.block_two_txs). vm_compute. reflexivity.
Defined.

End EncoderExtras.

Lemma collect_res_Forall2 {A B} (f : A -> res B) : forall l ys,
  collect_res f l = Ok ys -> Forall2 (fun x y => f x = Ok y) l ys.
Proof.
  induction l as [|x l IH]; intros ys H; cbn [collect_res] in H.
  - injection H as <-. constructor.
  - destruct (f x) as [y|e|p] eqn:Ef; simpl in H; try discriminate.
    destruct (collect_res f l) as [ys'|e|p] eqn:El; simpl in H; try discriminate.
    injection H as <-. constructor; [exact Ef | apply IH; reflexivity].
Qed.

Module LogExtras.

(** A log converts field by field: its topics are decoded one by one, in
    order; block index and transaction index are copied and the ordinal is
    0. Inside a block, a failing log is reported as [log_index: <n>], its
    log index in decimal, whatever the underlying error. *)
Theorem log_conversion (l : Log) :
  (forall pl, log_try_from l = Ok pl ->
     Forall2 (fun s b => try_decode_hex "log topic" s = Ok b) (log_topics l) (pbl_topics pl)
     /\ pbl_block_index pl = log_log_index l /\ pbl_index pl = log_transaction_index l
     /\ pbl_ordinal pl = 0%Z)
  /\ (forall e, convert_log l = Err e -> e = "log_index: " ++ string_of_N (log_log_index l))
  /\ (forall pl, convert_log l = Ok pl <-> log_try_from l = Ok pl).
Proof.
  split; [|split].
  - intros pl H. unfold log_try_from in H. repeat res_step H. injection H as <-. simpl.
    repeat split; [|reflexivity..]. apply collect_res_Forall2. assumption.
  - intros e. unfold convert_log, map_err. destruct (log_try_from l); congruence.
  - intros pl. unfold convert_log, map_err. destruct (log_try_from l); split; congruence.
Qed.

End LogExtras.

(** ** The request handlers *)

Lemma block_finish_ok (stream : list (res (list Block))) (resp : SingleBlockResponse) :
  block_finish stream = Ok resp ->
  exists b bs rest g, stream = Ok (b :: bs) :: rest /\ block_try_from b = Ok g
    /\ resp = mkSingleBlockResponse (Some (mkAny block_type_url g)).
Proof.
  destruct stream as [|[[|b bs]|e|p] rest]; cbn [block_finish res_bind]; try discriminate.
  destruct (block_try_from b) as [g|e|p] eqn:Eg; cbn [res_bind]; try discriminate.
  intros H. injection H as <-. exists b, bs, rest, g. auto.
Qed.

Module HandlerExtras.

(** A successful [Firehose::block] had no transforms, and its response is
    the conversion of the first block of the first batch the portal answers
    for [from = to = block_num]; the block's own number is not compared with
    [block_num]. *)
Theorem block_response_first_block (portal : DataSource) (rpc : option HotDataSource)
    (request : SingleBlockRequest) (resp : SingleBlockResponse) :
  block portal rpc request = Ok resp ->
  sb_transforms request = []
  /\ exists n b bs rest g,
       block_num_of (reference request) = Ok n
       /\ get_finalized_blocks portal
            (mkDataRequest n (Some n) [LogRequest_default] [TxRequest_default]
                           [TraceRequest_default]) true
          = Ok (Ok (b :: bs) :: rest)
       /\ block_try_from b = Ok g
       /\ resp = mkSingleBlockResponse (Some (mkAny block_type_url g)).
Proof.
  unfold block. intros H.
  destruct (sb_transforms request) as [|t ts]; [|discriminate]. split; [reflexivity|].
  destruct (block_num_of (reference request)) as [n|e|p]; cbn [res_bind] in H; try discriminate.
  destruct (get_finalized_height portal) as [hp|e|p]; cbn [res_bind] in H; try discriminate.
  assert (Hp : forall r, r = get_finalized_blocks portal
                               (mkDataRequest n (Some n) [LogRequest_default] [TxRequest_default]
                                              [TraceRequest_default]) true ->
                 res_bind r block_finish = Ok resp ->
                 exists b bs rest g, Ok n = Ok n
                   /\ r = Ok (Ok (b :: bs) :: rest) /\ block_try_from b = Ok g
                   /\ resp = mkSingleBlockResponse (Some (mkAny block_type_url g))).
  { intros [st|e|p] _ Hr; cbn [res_bind] in Hr; try discriminate.
    destruct (block_finish_ok _ _ Hr) as (b & bs & rest & g & -> & Hg & ->).
    exists b, bs, rest, g. auto. }
  exists n. destruct (n <=? hp)%Z.
  - exact (Hp _ eq_refl H).
  - destruct rpc as [rh|]; [|discriminate].
    destruct (get_finalized_height (as_ds rh)) as [rh_h|e|p]; cbn [res_bind] in H; try discriminate.
    destruct (n <=? rh_h)%Z; [exact (Hp _ eq_refl H) | discriminate].
Qed.

Lemma block_response_first_block_witness :
  exists resp,
    block (Samples.source_at 100) None (mkSingleBlockRequest (Some (BlockNumber 5)) []) = Ok resp
    /\ sb_transforms (mkSingleBlockRequest (Some (BlockNumber 5)) []) = []
    /\ exists n b bs rest g,
         block_num_of (reference (mkSingleBlockRequest (Some (BlockNumber 5)) [])) = Ok n
         /\ get_finalized_blocks (Samples.source_at 100)
              (mkDataRequest n (Some n) [LogRequest_default] [TxRequest_default]
                             [TraceRequest_default]) true
            = Ok (Ok (b :: bs) :: rest)
         /\ block_try_from b = Ok g
         /\ resp = mkSingleBlockResponse (Some (mkAny block_type_url g)).
Proof.
  exists (match block (Samples.source_at 100) None (mkSingleBlockRequest (Some (BlockNumber 5)) [])
          with Ok r => r | _ => mkSingleBlockResponse None end).
  split; [vm_compute; reflexivity|].
  apply (block_response_first_block (Samples.source_at 100) None).
  vm_compute. reflexivity.
Defined.





End HandlerExtras.
